(** * Heading inference and section segmentation of [pdfParser.py]

    A shallow embedding of [src/backend/app/step1_parse/pdfParser.py]
    ([infer_heading_sizes] and [extract_everything]) together with the
    properties of the segmentation pipeline, and of the code that consumes
    its output: [filter_sections.py], [summarize.py], [evaluate.py] and the
    endpoints of [main.py], with the PDF decoder, the language-model
    service, the environment and the JSON parser as parameters.

    Modelling conventions.
    - A Python float holding a font size or a coordinate is the integer
      [n] that stands for the double [n * 2^-k], for a scale [k] fixed for
      the document; a double has at most 53 significant bits.  The source
      only compares and subtracts them: comparison is exact, and
      subtraction rounds the exact difference to 53 significant bits, ties
      to even, as IEEE 754 does ([fsub]); sizes are finite and their
      differences stay in the finite range.
    - A Python [str] is a list of characters; a character is a code point
      below 256, held in [ascii], with the Unicode classification Python
      gives to U+0000..U+00FF.
    - The nested dictionaries of PyMuPDF are records; a missing ["lines"] or
      ["spans"] key is the empty list.
    - [for] loops that append to a list are left folds over the accumulated
      state. *)

From Stdlib Require Import ZArith NArith Ascii String List Bool Lia.
From Stdlib Require Import Sorting.Sorted Sorting.Permutation.
From stdpp Require Import base list gmap sorting.

Local Open Scope Z_scope.

(* ===================================================================== *)
(** * Python strings *)
(* ===================================================================== *)

Definition str := list ascii.

Definition code (c : ascii) : N := N_of_ascii c.

Definition in_range (lo hi : N) (c : ascii) : bool :=
  ((lo <=? code c) && (code c <=? hi))%N.

(** [Py_UNICODE_ISSPACE]: TAB..CR, FS..US, SPACE, NEL and NBSP. *)
Definition isspace_char (c : ascii) : bool :=
  in_range 9 13 c || in_range 28 32 c ||
  (code c =? 133)%N || (code c =? 160)%N.

(** [Py_UNICODE_ISDECIMAL], the class behind [\d]. *)
Definition isdecimal_char (c : ascii) : bool := in_range 48 57 c.

(** [Py_UNICODE_ISUPPER]: A-Z and the Latin-1 capitals (not the
    multiplication sign). *)
Definition isupper_char (c : ascii) : bool :=
  in_range 65 90 c || in_range 192 214 c || in_range 216 222 c.

(** [Py_UNICODE_ISLOWER]: a-z, the Latin-1 small letters (not the division
    sign), and the ordinal indicators and micro sign. *)
Definition islower_char (c : ascii) : bool :=
  in_range 97 122 c || in_range 223 246 c || in_range 248 255 c ||
  (code c =? 170)%N || (code c =? 181)%N || (code c =? 186)%N.

Definition is_empty {A} (l : list A) : bool :=
  match l with [] => true | _ => false end.

(** [str.lstrip()], [str.rstrip()], [str.strip()] without argument. *)
Fixpoint lstrip (s : str) : str :=
  match s with
  | [] => []
  | c :: s' => if isspace_char c then lstrip s' else s
  end.

Definition rstrip (s : str) : str := rev (lstrip (rev s)).

Definition strip (s : str) : str := rstrip (lstrip s).

(** [str.split()] without argument: maximal runs of non-space characters.
    [cur] is the word being read, reversed. *)
Fixpoint split_aux (cur : str) (s : str) : list str :=
  match s with
  | [] => if is_empty cur then [] else [rev cur]
  | c :: s' =>
      if isspace_char c
      then (if is_empty cur then split_aux [] s' else rev cur :: split_aux [] s')
      else split_aux (c :: cur) s'
  end.

Definition split (s : str) : list str := split_aux [] s.

(** [sep.join(parts)]. *)
Fixpoint join (sep : str) (parts : list str) : str :=
  match parts with
  | [] => []
  | p :: ps => if is_empty ps then p else p ++ sep ++ join sep ps
  end.

(** [str.isupper()]: no lower-case character and at least one upper-case
    one. *)
Definition isupper (s : str) : bool :=
  forallb (fun c => negb (islower_char c)) s && existsb isupper_char s.

(** [str.istitle()], the loop of [unicode_istitle_impl]: an upper-case
    character may only follow an uncased one, a lower-case character only a
    cased one, and there is at least one cased character. *)
Fixpoint istitle_aux (previous_is_cased cased : bool) (s : str) : bool :=
  match s with
  | [] => cased
  | ch :: s' =>
      if isupper_char ch then
        if previous_is_cased then false else istitle_aux true true s'
      else if islower_char ch then
        if previous_is_cased then istitle_aux true true s' else false
      else istitle_aux false cased s'
  end.

Definition istitle (s : str) : bool := istitle_aux false false s.

Definition lit (s : string) : str := list_ascii_of_string s.

Definition newline : str := lit (String (ascii_of_nat 10) EmptyString).

(* ===================================================================== *)
(** * Regular expressions, as far as [re.match] needs them *)
(* ===================================================================== *)

Inductive regex : Type :=
| Void : regex
| Eps : regex
| Class : (ascii -> bool) -> regex
| Seq : regex -> regex -> regex
| Alt : regex -> regex -> regex
| Star : regex -> regex.

Definition Plus (r : regex) : regex := Seq r (Star r).
Definition Opt (r : regex) : regex := Alt r Eps.

Fixpoint nullable (r : regex) : bool :=
  match r with
  | Void => false
  | Eps => true
  | Class _ => false
  | Seq r1 r2 => nullable r1 && nullable r2
  | Alt r1 r2 => nullable r1 || nullable r2
  | Star _ => true
  end.

Fixpoint deriv (c : ascii) (r : regex) : regex :=
  match r with
  | Void => Void
  | Eps => Void
  | Class p => if p c then Eps else Void
  | Seq r1 r2 =>
      if nullable r1 then Alt (Seq (deriv c r1) r2) (deriv c r2)
      else Seq (deriv c r1) r2
  | Alt r1 r2 => Alt (deriv c r1) (deriv c r2)
  | Star r1 => Seq (deriv c r1) (Star r1)
  end.

(** [bool(pattern.match(s))]: some prefix of [s] is in the language. *)
Fixpoint re_match (r : regex) (s : str) : bool :=
  nullable r ||
  match s with
  | [] => false
  | c :: s' => re_match (deriv c r) s'
  end.

(** The language of a regular expression. *)
Inductive matches : regex -> str -> Prop :=
| m_eps : matches Eps []
| m_class p c : p c = true -> matches (Class p) [c]
| m_seq r1 r2 s1 s2 :
    matches r1 s1 -> matches r2 s2 -> matches (Seq r1 r2) (s1 ++ s2)
| m_alt_l r1 r2 s : matches r1 s -> matches (Alt r1 r2) s
| m_alt_r r1 r2 s : matches r2 s -> matches (Alt r1 r2) s
| m_star_nil r : matches (Star r) []
| m_star_cons r s1 s2 :
    matches r s1 -> matches (Star r) s2 -> matches (Star r) (s1 ++ s2).

(* ===================================================================== *)
(** * Python builtins: [max], [min], [sorted], slices *)
(* ===================================================================== *)

(** [max(x :: l, key=key)]: the first element whose key is maximal; the
    running best is replaced only by a strictly larger key. *)
Fixpoint max_by {A} (key : A -> Z) (best : A) (l : list A) : A :=
  match l with
  | [] => best
  | x :: l' => max_by key (if key best <? key x then x else best) l'
  end.

(** [min(x :: l)] on numbers. *)
Definition min_of (x : Z) (l : list Z) : Z := fold_left Z.min l x.

(** [sorted] / [list.sort]: a stable sort; [leb x y] says that [x] may stay
    before [y]. *)
Fixpoint insert_by {A} (leb : A -> A -> bool) (x : A) (l : list A) : list A :=
  match l with
  | [] => [x]
  | y :: l' => if leb x y then x :: l else y :: insert_by leb x l'
  end.

Definition sorted_by {A} (leb : A -> A -> bool) (l : list A) : list A :=
  foldr (insert_by leb) [] l.

(** [sorted(set(xs), reverse=True)] on numbers. *)
Definition sorted_set_desc (xs : list Z) : list Z :=
  sorted_by (fun x y => y <=? x) (elements (list_to_set xs : gset Z)).

(** [l[:k]], with Python's reading of a negative bound. *)
Definition slice_to {A} (l : list A) (k : Z) : list A :=
  if 0 <=? k then take (Z.to_nat k) l
  else take (length l - Z.to_nat (- k))%nat l.

(** Tuples [(page, y)] compare lexicographically. *)
Definition key_leb (a b : Z * Z) : bool :=
  (a.1 <? b.1) || ((a.1 =? b.1) && (a.2 <=? b.2)).

(* ===================================================================== *)
(** * [infer_heading_sizes] *)
(* ===================================================================== *)

(** Rounding to the nearest double: the 53 leading bits are kept, the rest
    is rounded to nearest, ties to the even mantissa. *)
Definition round53 (x : Z) : Z :=
  let a := Z.abs x in
  let e := Z.log2 a - 52 in
  if e <=? 0 then x
  else
    let q := Z.shiftr a e in
    let r := a - Z.shiftl q e in
    let half := Z.shiftl 1 (e - 1) in
    let q' := if (half <? r) || ((r =? half) && Z.odd q) then q + 1 else q in
    Z.sgn x * Z.shiftl q' e.

(** [a - b] on floats. *)
Definition fsub (a b : Z) : Z := round53 (a - b).

(** [unique_sizes[i] - unique_sizes[i+1]] of line 37. *)
Definition gap (unique_sizes : list Z) (i : nat) : Z :=
  fsub (nth i unique_sizes 0) (nth (S i) unique_sizes 0).

Definition infer_heading_sizes (font_sizes : list Z) : gset Z :=
  let unique_sizes := sorted_set_desc font_sizes in
  if (length unique_sizes <? 2)%nat then list_to_set unique_sizes
  else
    let diffs :=
      map (fun i => (gap unique_sizes i, i))
          (seq 0 (length unique_sizes - 1)) in
    match diffs with
    | [] => ∅
    | d :: diffs' =>
        let '(max_gap, idx) := max_by fst d diffs' in
        list_to_set (take (idx + 1) unique_sizes)
    end.

(* ===================================================================== *)
(** * The document model *)
(* ===================================================================== *)

Record span := Span { s_text : str; s_size : Z; s_bbox : Z * Z * Z * Z }.

(** [s["bbox"][1]] *)
Definition bbox1 (s : span) : Z :=
  let '(_, y0, _, _) := s_bbox s in y0.

Record line := Line { spans : list span }.

Record block := Block { btype : Z; lines : list line }.

Record page := Page { blocks : list block }.

Definition document := list page.

Record heading := Heading { h_page : Z; h_y0 : Z; h_text : str }.

Record section := Sec { sec_section : str; sec_text : str }.

Record result := Result { content : list section }.

(** [float("inf")] next to finite numbers. *)
Inductive bound : Type :=
| Fin : Z -> bound
| Inf : bound.

Definition lt_bound (x : Z) (b : bound) : bool :=
  match b with Fin z => x <? z | Inf => true end.

Definition eq_bound (x : Z) (b : bound) : bool :=
  match b with Fin z => x =? z | Inf => false end.

(* ===================================================================== *)
(** * [extract_everything] *)
(* ===================================================================== *)

(** ** Step 1: font sizes and page blocks *)

Definition collect_line (font_sizes : list Z) (ln : line) : list Z :=
  match spans ln with
  | [] => font_sizes
  | s :: rest => font_sizes ++ [s_size (max_by s_size s rest)]
  end.

Definition collect_block (acc : list Z * list block) (b : block)
  : list Z * list block :=
  let '(font_sizes, blocks) := acc in
  if negb (btype b =? 0) || is_empty (lines b) then acc
  else (fold_left collect_line (lines b) font_sizes, blocks ++ [b]).

Definition collect_page (acc : Z * list Z * list (Z * list block)) (p : page)
  : Z * list Z * list (Z * list block) :=
  let '(page_num, font_sizes, pages_blocks) := acc in
  let '(font_sizes', blocks) :=
    fold_left collect_block (blocks p) (font_sizes, []) in
  (page_num + 1, font_sizes', pages_blocks ++ [(page_num, blocks)]).

Definition collect (doc : document) : list Z * list (Z * list block) :=
  let '(_, font_sizes, pages_blocks) := fold_left collect_page doc (1, [], []) in
  (font_sizes, pages_blocks).

Definition font_sizes (doc : document) : list Z := (collect doc).1.

Definition pages_blocks (doc : document) : list (Z * list block) :=
  (collect doc).2.

(** ** Step 2: heading sizes, with the optional forced floor *)

Definition heading_sizes (doc : document) (heading_font_count : option Z)
  : gset Z :=
  let heading_sizes := infer_heading_sizes (font_sizes doc) in
  match heading_font_count with
  | None => heading_sizes
  | Some k =>
      if k =? 0 then heading_sizes
      else
        let sorted_sizes := sorted_set_desc (font_sizes doc) in
        let forced : gset Z := list_to_set (slice_to sorted_sizes k) in
        heading_sizes ∪ forced
  end.

(** [^\d+(?:[\.\d]+)?\s+.*] *)
Definition period : ascii := ascii_of_nat 46.

Definition dot_or_digit (c : ascii) : bool :=
  Ascii.eqb c period || isdecimal_char c.

Definition not_linebreak (c : ascii) : bool :=
  negb (Ascii.eqb c (ascii_of_nat 10)).

Definition num_heading_re : regex :=
  Seq (Plus (Class isdecimal_char))
      (Seq (Opt (Plus (Class dot_or_digit)))
           (Seq (Plus (Class isspace_char))
                (Star (Class not_linebreak)))).

(** ** Step 3: heading candidates *)

(** [[s for line in block["lines"] for s in line.get("spans", [])]] *)
Definition block_spans (b : block) : list span := flat_map spans (lines b).

Definition block_title (b : block) : str :=
  strip (concat (map s_text (block_spans b))).

Definition is_heading (hs : gset Z) (size : Z) (text : str) : bool :=
  bool_decide (size ∈ hs) ||
  re_match num_heading_re text ||
  isupper text ||
  ((length (split text) <=? 5)%nat && istitle text).

Definition heading_block (hs : gset Z) (page_num : Z)
    (headings : list heading) (b : block) : list heading :=
  match block_spans b with
  | [] => headings
  | s :: rest =>
      let text := strip (concat (map s_text (s :: rest))) in
      if is_empty text then headings
      else
        let max_span := max_by s_size s rest in
        let size := s_size max_span in
        if negb (is_heading hs size text) then headings
        else
          let y0 := min_of (bbox1 s) (map bbox1 rest) in
          headings ++ [Heading page_num y0 text]
  end.

Definition heading_page (hs : gset Z) (headings : list heading)
    (pb : Z * list block) : list heading :=
  fold_left (heading_block hs pb.1) pb.2 headings.

Definition heading_key (h : heading) : Z * Z := (h_page h, h_y0 h).

Definition headings (doc : document) (heading_font_count : option Z)
  : list heading :=
  let hs := heading_sizes doc heading_font_count in
  let found := fold_left (heading_page hs) (pages_blocks doc) [] in
  sorted_by (fun a b => key_leb (heading_key a) (heading_key b)) found.

(** ** Step 4: all text blocks in reading order *)

Definition flat_block (page_num : Z) (acc : list (Z * block * Z)) (b : block)
  : list (Z * block * Z) :=
  match block_spans b with
  | [] => acc
  | s :: rest => acc ++ [(page_num, b, min_of (bbox1 s) (map bbox1 rest))]
  end.

Definition flat_page (acc : list (Z * block * Z)) (pb : Z * list block)
  : list (Z * block * Z) :=
  fold_left (flat_block pb.1) pb.2 acc.

Definition flat_key (x : Z * block * Z) : Z * Z := (x.1.1, x.2).

Definition flat_blocks (doc : document) : list (Z * block * Z) :=
  sorted_by (fun a b => key_leb (flat_key a) (flat_key b))
            (fold_left flat_page (pages_blocks doc) []).

(** ** Step 5: blocks grouped under each heading *)

Definition section_end (hds : list heading) (idx : nat) : bound * bound :=
  match hds !! (idx + 1)%nat with
  | Some next_h => (Fin (h_page next_h), Fin (h_y0 next_h))
  | None => (Inf, Inf)
  end.

(** The test of lines 142-143. *)
Definition in_section (start_pg start_y : Z) (end_ : bound * bound)
    (x : Z * block * Z) : bool :=
  let '(pg, _, y0) := x in
  ((start_pg <? pg) || ((pg =? start_pg) && (start_y <=? y0))) &&
  (lt_bound pg end_.1 || (eq_bound pg end_.1 && lt_bound y0 end_.2)).

Definition line_text (ln : line) : str := concat (map s_text (spans ln)).

Definition block_text (b : block) : str :=
  join newline (map line_text (lines b)).

Definition section_members (hds : list heading) (flat : list (Z * block * Z))
    (idx : nat) (h : heading) : list (Z * block * Z) :=
  filter (fun x => in_section (h_page h) (h_y0 h) (section_end hds idx) x = true)
         flat.

Definition section_body (hds : list heading) (flat : list (Z * block * Z))
    (idx : nat) (h : heading) : str :=
  let texts := map (fun x => block_text x.1.2) (section_members hds flat idx h) in
  strip (join newline texts).

Definition group_sections (hds : list heading) (flat : list (Z * block * Z))
  : list section :=
  imap (fun idx h => Sec (h_text h) (section_body hds flat idx h)) hds.

Definition extract_document (doc : document) (heading_font_count : option Z)
  : result :=
  Result (group_sections (headings doc heading_font_count) (flat_blocks doc)).

(** The calls into the PDF library, [fitz.open] of line 53 and the
    [page.get_text] of line 60 for every page, either give the pages or
    raise; [fitz_open] answers [None] when one of them raises, and the
    exception leaves [extract_everything].  The rest of the function works
    on the decoded pages. *)
Inductive outcome : Type :=
| DocumentParseError : outcome
| Returns : result -> outcome.

Definition extract_everything (fitz_open : str -> option document)
    (pdf_path : str) (heading_font_count : option Z) : outcome :=
  match fitz_open pdf_path with
  | None => DocumentParseError
  | Some doc => Returns (extract_document doc heading_font_count)
  end.

(* ===================================================================== *)
(** * The language-model service and the environment *)
(* ===================================================================== *)

(** What [model.generate_content] followed by the read of [response.text]
    gives: the text, or an exception with its [str(e)]; [is_timeout] says
    whether the exception is a [TimeoutError].  The service is a parameter
    of every function that calls it.  In [filter_sections.py] and
    [evaluate.py] the calls of [genai.configure] and of the
    [GenerativeModel] constructor sit inside the [try] of the request, so
    an exception of theirs is one of the [Raised]; in [summarize.py] they
    sit before the [try] and are a parameter of their own. *)
Inductive llm_reply : Type :=
| Replied (text : str)
| Raised (is_timeout : bool) (e : str).

(** [not os.environ.get("GOOGLE_API_KEY")]: unset or empty. *)
Definition key_missing (api_key : option str) : bool :=
  match api_key with
  | None => true
  | Some k => is_empty k
  end.

Definition chr (n : nat) : str := [ascii_of_nat n].

(** [str.lower()] on the code points below 256. *)
Definition lower_char (c : ascii) : ascii :=
  if isupper_char c then ascii_of_N (code c + 32) else c.

Definition lower (s : str) : str := map lower_char s.

(** [s.startswith(p)] and [needle in s]. *)
Fixpoint startswith (p s : str) : bool :=
  match p, s with
  | [], _ => true
  | _ :: _, [] => false
  | a :: p', b :: s' => Ascii.eqb a b && startswith p' s'
  end.

Fixpoint contains (needle s : str) : bool :=
  startswith needle s ||
  match s with
  | [] => false
  | _ :: s' => contains needle s'
  end.

(** [s.endswith(p)]. *)
Definition endswith (p s : str) : bool := startswith (rev p) (rev s).

(* ===================================================================== *)
(** * [filter_sections.py] *)
(* ===================================================================== *)

Record section_result := SectionResult {
  r_section : str;
  r_content : str;
  meets_criteria : bool;
  analysis : str
}.

(** The dictionaries returned by [process_pdf_sections]; a key that a branch
    does not set is [None].  [evaluation_summary] is the key that
    [main.py] adds. *)
Record analysis_results := AnalysisResults {
  status : str;
  a_message : option str;
  total_sections : option nat;
  matching_count : option nat;
  all_sections : option (list section_result);
  matching_sections : list section_result;
  evaluation_summary : option str
}.

Definition filter_system_prompt : str :=
  lit "Spr" ++ chr 229 ++ lit "k: Svenska. Du " ++ chr 228 ++
  lit "r en expert dokumentanalysator. Utv" ++ chr 228 ++ lit "rdera om f" ++
  chr 246 ++ lit "ljande dokumentavsnitt uppfyller n" ++ chr 229 ++
  lit "got av kriterierna.".

(** The text sent for one section; [criteria] is
    [SECTION_ANALYSIS_CRITERIA]. *)
Definition section_prompt (criteria : str) (sec : section) : str :=
  let user_message :=
    lit "Kriterier: " ++ criteria ++
    newline ++ newline ++ lit "Avsnitt: " ++ sec_section sec ++
    newline ++ newline ++ lit "Inneh" ++ chr 229 ++ lit "ll: " ++ sec_text sec in
  filter_system_prompt ++ newline ++ newline ++ user_message.

Definition process_pdf_section (api_key : option str) (criteria : str)
    (generate_content : str -> llm_reply) (sec : section) : section_result :=
  if key_missing api_key then
    SectionResult (sec_section sec) (sec_text sec) false
      (lit "Error: GOOGLE_API_KEY environment variable not set. Make sure to add it to your .env file and install python-dotenv.")
  else
    match generate_content (section_prompt criteria sec) with
    | Replied response_text =>
        let meets :=
          contains (lit "yes") (lower response_text) ||
          contains (lit "true") (lower response_text) in
        SectionResult (sec_section sec) (sec_text sec) meets response_text
    | Raised _ e =>
        SectionResult (sec_section sec) (sec_text sec) false (lit "Error: " ++ e)
    end.

(** [parsed_pdf_data] is a dictionary whose key ["subsections"], when
    present, holds the parser's result; task number [i] of [asyncio.gather]
    talks to [generate_content i], and the results come back in the order of
    the tasks. *)
Definition process_pdf_sections (api_key : option str) (criteria : str)
    (generate_content : nat -> str -> llm_reply)
    (parsed_pdf_data : option result) : analysis_results :=
  let sections :=
    match parsed_pdf_data with
    | Some subsections => content subsections
    | None => []
    end in
  if is_empty sections then
    AnalysisResults (lit "error")
      (Some (lit "No sections found in the parsed PDF data"))
      None None None [] None
  else
    let results :=
      imap (fun i sec =>
              process_pdf_section api_key criteria (generate_content i) sec)
           sections in
    let matching := filter (fun r => meets_criteria r = true) results in
    AnalysisResults (lit "success") None
      (Some (length sections)) (Some (length matching))
      (Some results) matching None.

(** The [except] branch of [analyze_pdf_sections] needs an exception out of
    [process_pdf_sections], which catches its own. *)
Definition analyze_pdf_sections (api_key : option str) (criteria : str)
    (generate_content : nat -> str -> llm_reply)
    (parsed_pdf_data : option result) : analysis_results :=
  process_pdf_sections api_key criteria generate_content parsed_pdf_data.

(* ===================================================================== *)
(** * [summarize.py] *)
(* ===================================================================== *)

Record summary_results := SummaryResults {
  s_success : bool;
  s_message : option str;
  summary : str
}.

(** The loop of lines 65-69. *)
Definition combine_sections (sections : list section) : str :=
  fold_left
    (fun combined sec =>
       combined ++ newline ++ newline ++ lit "===== SECTION: " ++
       sec_section sec ++ lit " =====" ++ newline ++ sec_text sec)
    sections [].

(** The text sent to the service; [prompt] is [SUMMARIZATION_PROMPT]. *)
Definition summary_prompt (prompt : str) (sections : list section) : str :=
  let user_prompt :=
    lit "Sammanfatta utv" ++ chr 228 ++ lit "rderingsmodellen nedan baserat p" ++
    chr 229 ++ lit " dessa sektioner utifr" ++ chr 229 ++
    lit "n ett upphandlingsdokument:" ++ combine_sections sections in
  prompt ++ newline ++ newline ++ user_prompt.

Definition summarize_relevant_content (api_key : option str) (prompt : str)
    (generate_content : str -> llm_reply) (extraction_results : result)
  : summary_results :=
  let sections := content extraction_results in
  if is_empty sections then
    SummaryResults false
      (Some (lit "No extracted content provided for summarization.")) []
  else if key_missing api_key then
    SummaryResults false
      (Some (lit "GOOGLE_API_KEY environment variable not set.")) []
  else
    match generate_content (summary_prompt prompt sections) with
    | Replied text =>
        if is_empty text then
          SummaryResults false (Some (lit "LLM returned an empty response.")) []
        else SummaryResults true None text
    | Raised _ e =>
        SummaryResults false (Some (lit "Error during summarization: " ++ e)) []
    end.

Definition run_summarization (api_key : option str) (prompt : str)
    (generate_content : str -> llm_reply) (extraction_results : result)
  : summary_results :=
  summarize_relevant_content api_key prompt generate_content extraction_results.

(** The two functions above give the dictionary returned when lines 81-90
    pass.  Those lines, [genai.configure] and the [GenerativeModel]
    constructor, come after the key check and before the [try] of line 95:
    an exception of theirs leaves the function.  [setup] is its [str(e)],
    [None] when they pass; the result is the text of the exception that
    leaves, or the dictionary returned. *)
Definition summarize_relevant_content_exn (api_key : option str) (prompt : str)
    (setup : option str) (generate_content : str -> llm_reply)
    (extraction_results : result) : str + summary_results :=
  let sections := content extraction_results in
  if is_empty sections then
    inr (SummaryResults false
           (Some (lit "No extracted content provided for summarization.")) [])
  else if key_missing api_key then
    inr (SummaryResults false
           (Some (lit "GOOGLE_API_KEY environment variable not set.")) [])
  else
    match setup with
    | Some e => inl e
    | None =>
        match generate_content (summary_prompt prompt sections) with
        | Replied text =>
            if is_empty text then
              inr (SummaryResults false
                     (Some (lit "LLM returned an empty response.")) [])
            else inr (SummaryResults true None text)
        | Raised _ e =>
            inr (SummaryResults false
                   (Some (lit "Error during summarization: " ++ e)) [])
        end
    end.

Definition run_summarization_exn (api_key : option str) (prompt : str)
    (setup : option str) (generate_content : str -> llm_reply)
    (extraction_results : result) : str + summary_results :=
  summarize_relevant_content_exn api_key prompt setup generate_content
    extraction_results.

(* ===================================================================== *)
(** * [evaluate.py] *)
(* ===================================================================== *)

(** The values [json.loads] builds; an object keeps its members in order. *)
#[warnings="-register-all"]
Inductive json : Type :=
| JNull : json
| JBool : bool -> json
| JNumber : str -> json
| JString : str -> json
| JArray : list json -> json
| JObject : list (str * json) -> json.

(** [json.loads(text)]: the value, a [JSONDecodeError], or another
    exception with its [str(e)].  The parser is a parameter. *)
Inductive json_outcome : Type :=
| Parsed (value : json)
| JSONDecodeError
| JsonRaised (e : str).

Definition str_eqb (a b : str) : bool := bool_decide (a = b).

(** [d[key]] for a key of the dictionary, [None] when [key not in d]. *)
Fixpoint obj_get (key : str) (members : list (str * json)) : option json :=
  match members with
  | [] => None
  | (k, v) :: rest => if str_eqb k key then Some v else obj_get key rest
  end.

Record evaluation_results := EvaluationResults {
  e_success : bool;
  e_message : option str;
  raw_response : option str;
  data : option json
}.

(** The loop of lines 192-193. *)
Definition combine_matching (matching : list section_result) : str :=
  fold_left
    (fun combined_sections sec =>
       combined_sections ++ newline ++ newline ++ lit "===== AVSNITT: " ++
       r_section sec ++ lit " =====" ++ newline ++ r_content sec)
    matching [].

Definition evaluation_prompt (matching : list section_result)
    (evaluation_summary : str) : str :=
  let combined_sections := combine_matching matching in
  let summary_text :=
    if is_empty evaluation_summary then []
    else
      newline ++ lit "            ===== UTV" ++ chr 196 ++
      lit "RDERINGSMODELL SAMMANFATTNING =====" ++ newline ++
      lit "            " ++ evaluation_summary in
  lit " Below is the relevant section from the procurement document, followed by a summary of the evaluation model." ++
  newline ++ lit "                        --- Procurement Document Excerpt ---" ++
  newline ++ lit "                        " ++ combined_sections ++
  newline ++ newline ++
  lit "                        --- Evaluation Model Summary ---" ++
  newline ++ lit "                        " ++ summary_text ++
  newline ++ newline ++
  lit "                        Please extract all price-affecting variables and rules according to the system instructions, and output a single valid JSON object as specified." ++
  newline ++ lit "                        ".

(** The checks of lines 237-263 on the parsed value. *)
Definition validate_parsed (response_text : str) (parsed_data : json)
  : evaluation_results :=
  let wrong_shape :=
    EvaluationResults false
      (Some (lit "LLM response is valid JSON but lacks the required 'variables' or 'rules' keys, or they have the wrong type."))
      (Some response_text) None in
  match parsed_data with
  | JObject members =>
      match obj_get (lit "variables") members, obj_get (lit "rules") members with
      | Some (JObject variables), Some (JArray rules) =>
          if is_empty variables && is_empty rules then
            EvaluationResults false
              (Some (lit "LLM returned empty variables and rules. The evaluation model might be missing or unparsable."))
              (Some response_text) None
          else EvaluationResults true None None (Some parsed_data)
      | _, _ => wrong_shape
      end
  | _ => wrong_shape
  end.

Definition parse_matching_sections (api_key : option str)
    (generate_content : str -> llm_reply) (json_loads : str -> json_outcome)
    (analysis : analysis_results) : evaluation_results :=
  let matching := matching_sections analysis in
  let evaluation_summary :=
    match evaluation_summary analysis with Some s => s | None => [] end in
  if is_empty matching then
    EvaluationResults false
      (Some (lit "No matching sections found in the analysis results"))
      None None
  else if key_missing api_key then
    EvaluationResults false
      (Some (lit "GOOGLE_API_KEY environment variable not set")) None None
  else
    match generate_content (evaluation_prompt matching evaluation_summary) with
    | Raised true _ =>
        EvaluationResults false
          (Some (lit "LLM response timed out after 120 seconds")) None None
    | Raised false e =>
        EvaluationResults false
          (Some (lit "Error processing sections: " ++ e)) None None
    | Replied response_text =>
        if negb (endswith (lit "}") (strip response_text)) then
          EvaluationResults false
            (Some (lit "LLM returned incomplete JSON response"))
            (Some response_text) None
        else
          match json_loads response_text with
          | Parsed parsed_data => validate_parsed response_text parsed_data
          | JSONDecodeError =>
              EvaluationResults false
                (Some (lit "Failed to parse LLM response as JSON."))
                (Some response_text) None
          | JsonRaised e =>
              EvaluationResults false
                (Some (lit "Error processing LLM response: " ++ e))
                (Some response_text) None
          end
    end.

(** The [except] branch of [parse_evaluation_components] needs an exception
    out of [parse_matching_sections], which catches its own. *)
Definition parse_evaluation_components (api_key : option str)
    (generate_content : str -> llm_reply) (json_loads : str -> json_outcome)
    (analysis : analysis_results) : evaluation_results :=
  parse_matching_sections api_key generate_content json_loads analysis.

(* ===================================================================== *)
(** * [main.py] *)
(* ===================================================================== *)

(** The services an endpoint reaches.  [fitz] is the PDF library as
    [extract_everything] uses it, [fitz.open] and the [page.get_text] of
    every page: it gives the pages, or [str(e)] of the exception that one
    of these calls raises.  Then the environment, the three uses of the
    language model with their fixed prompt texts, the set-up of the
    summarizer's model (lines 81-90 of [summarize.py]: [str(e)] of the
    exception it raises, if any), and the JSON parser. *)
Record services := Services {
  fitz : str -> str + document;
  api_key : option str;
  criteria : str;
  summarization_prompt : str;
  filter_model : nat -> str -> llm_reply;
  summary_setup : option str;
  summary_model : str -> llm_reply;
  evaluation_model : str -> llm_reply;
  json_loads : str -> json_outcome
}.

Definition fitz_open (sv : services) (pdf_path : str) : option document :=
  match fitz sv pdf_path with
  | inl _ => None
  | inr doc => Some doc
  end.

(** [str(e)] of the exception that leaves [extract_everything]. *)
Definition open_error (sv : services) (pdf_path : str) : str :=
  match fitz sv pdf_path with
  | inl e => e
  | inr _ => []
  end.

(** What an endpoint answers once the upload is stored at [file_path]. *)
Inductive response : Type :=
| Extracted (extracted_data : result)
| Analysis (analysis : analysis_results)
| Components (components_results : evaluation_results) (summary : str)
| Status500 (error : str)
| Unhandled.

(** [/everything-scraper/]: no [try]; an exception leaves the handler. *)
Definition upload_p (sv : services) (file_path : str) : response :=
  match extract_everything (fitz_open sv) file_path None with
  | DocumentParseError => Unhandled
  | Returns extracted_data => Extracted extracted_data
  end.

(** [/analyze-pdf-sections/].  The [try] of lines 66-78 covers both stages.
    An exception of [extract_everything] reaches the [except];
    [analyze_pdf_sections] returns a dictionary for every exception of its
    own stage (lines 160-164 of [filter_sections.py]). *)
Definition analyze_pdf_sections_endpoint (sv : services) (file_path : str)
  : response :=
  match extract_everything (fitz_open sv) file_path None with
  | DocumentParseError =>
      Status500 (lit "Analysis failed: " ++ open_error sv file_path)
  | Returns parsed_data =>
      Analysis (analyze_pdf_sections (api_key sv) (criteria sv)
                  (filter_model sv) (Some parsed_data))
  end.

(** [/parse-with-summary/].  The [try] of lines 94-123 covers the four
    stages.  An exception of [extract_everything] and one of
    [run_summarization] reach the [except]; [analyze_pdf_sections] and
    [parse_evaluation_components] return a dictionary for every exception
    of their own stage. *)
Definition parse_with_summary_endpoint (sv : services) (file_path : str)
  : response :=
  match extract_everything (fitz_open sv) file_path None with
  | DocumentParseError =>
      Status500 (lit "Full pipeline with summary failed: " ++
                 open_error sv file_path)
  | Returns parsed_data =>
      match run_summarization_exn (api_key sv) (summarization_prompt sv)
              (summary_setup sv) (summary_model sv) parsed_data with
      | inl e => Status500 (lit "Full pipeline with summary failed: " ++ e)
      | inr summary_results =>
          let analysis :=
            analyze_pdf_sections (api_key sv) (criteria sv) (filter_model sv)
              (Some parsed_data) in
          let analysis :=
            AnalysisResults (status analysis) (a_message analysis)
              (total_sections analysis) (matching_count analysis)
              (all_sections analysis) (matching_sections analysis)
              (Some (summary summary_results)) in
          let components_results :=
            parse_evaluation_components (api_key sv) (evaluation_model sv)
              (json_loads sv) analysis in
          Components components_results (summary summary_results)
      end
  end.

(* ===================================================================== *)
(** * The vocabulary of the properties *)
(* ===================================================================== *)

(** The lexicographic order on positions, as a proposition. *)
Definition lex_le (a b : Z * Z) : Prop := a.1 < b.1 ∨ (a.1 = b.1 ∧ a.2 ≤ b.2).
Definition lex_lt (a b : Z * Z) : Prop := a.1 < b.1 ∨ (a.1 = b.1 ∧ a.2 < b.2).

(** The knee: the first index of the largest gap between neighbours of the
    descending sequence of distinct sizes [u]. *)
Definition is_knee (u : list Z) (idx : nat) : Prop :=
  (idx + 1 < length u)%nat ∧
  (∀ j, (j + 1 < length u)%nat → gap u j ≤ gap u idx) ∧
  (∀ j, (j < idx)%nat → gap u j < gap u idx).

(** The same with the gaps taken as exact differences of real numbers. *)
Definition exact_gap (u : list Z) (i : nat) : Z :=
  nth i u 0 - nth (S i) u 0.

Definition is_knee_exact (u : list Z) (idx : nat) : Prop :=
  (idx + 1 < length u)%nat ∧
  (∀ j, (j + 1 < length u)%nat → exact_gap u j ≤ exact_gap u idx) ∧
  (∀ j, (j < idx)%nat → exact_gap u j < exact_gap u idx).

(** [x] is a double. *)
Definition is_double (x : Z) : Prop := round53 x = x.

(** The doubles nearest to 22.3, 14.3 and 6.3, in units of [2^-50]. *)
Definition d22_3 : Z := 25107567922590516.
Definition d14_3 : Z := 16100368667849524.
Definition d6_3 : Z := 7093169413108531.

(** A block that survives line 63: type 0 with at least one line. *)
Definition text_block (b : block) : bool :=
  (btype b =? 0) && negb (is_empty (lines b)).

Definition block_sizes (b : block) : list Z :=
  flat_map (collect_line []) (lines b).

Definition kept_blocks (p : page) : list block :=
  filter (λ b, text_block b = true) (blocks p).

Definition page_sizes (p : page) : list Z :=
  flat_map block_sizes (kept_blocks p).

(** Every line of every surviving block, in document order. *)
Definition text_lines (doc : document) : list line :=
  flat_map (λ p, flat_map lines (kept_blocks p)) doc.

Definition text_spans (doc : document) : list span :=
  flat_map spans (text_lines doc).

Definition has_spans (ln : line) : bool := negb (is_empty (spans ln)).

(** [sz] is the largest font size among the spans of [ln]. *)
Definition largest_of (ln : line) (sz : Z) : Prop :=
  (∃ sp, sp ∈ spans ln ∧ s_size sp = sz) ∧
  (∀ sp, sp ∈ spans ln → s_size sp ≤ sz).

(** The blocks kept by step 1, each with its page number. *)
Definition placed (doc : document) : list (Z * block) :=
  flat_map (λ pb, map (pair pb.1) pb.2) (pages_blocks doc).

(** The derived attributes of a block that has spans: top edge, dominant
    font size. *)
Definition block_y0 (b : block) : Z :=
  match block_spans b with
  | [] => 0
  | s :: rest => min_of (bbox1 s) (map bbox1 rest)
  end.

Definition block_size (b : block) : Z :=
  match block_spans b with
  | [] => 0
  | s :: rest => s_size (max_by s_size s rest)
  end.

(** Block [b] of page [pg] passes the tests of step 3 and yields [h]. *)
Definition generates (hs : gset Z) (pg : Z) (b : block) (h : heading) : Prop :=
  block_spans b ≠ [] ∧
  block_title b ≠ [] ∧
  is_heading hs (block_size b) (block_title b) = true ∧
  h = Heading pg (block_y0 b) (block_title b).

(** Headings in collection order, before the sort of line 116. *)
Definition found_headings (doc : document) (heading_font_count : option Z)
  : list heading :=
  flat_map (λ x, heading_block (heading_sizes doc heading_font_count) x.1 [] x.2)
           (placed doc).

Definition found_blocks (doc : document) : list (Z * block * Z) :=
  flat_map (λ x, flat_block x.1 [] x.2) (placed doc).

(** [x] is among the [k] largest distinct values of [fs]: it occurs in [fs]
    and fewer than [k] distinct values of [fs] lie above it. *)
Definition top_k_distinct (fs : list Z) (k : nat) (x : Z) : Prop :=
  x ∈ fs ∧
  ∀ l, NoDup l → (∀ y, y ∈ l → y ∈ fs ∧ x < y) → (length l < k)%nat.

(** The shape the numbered-heading rule asks of a text: a numeral, then any
    run of digits and periods, then a white space, then the rest. *)
Definition numbered_shape (t : str) : Prop :=
  ∃ d more ws rest,
    t = d :: more ++ ws :: rest ∧
    isdecimal_char d = true ∧
    Forall (λ c, dot_or_digit c = true) more ∧
    isspace_char ws = true.

Definition cased_char (c : ascii) : bool := isupper_char c || islower_char c.

(** Title case as [str.istitle] reads it: some character is cased, the
    first character is not lower-case, an upper-case character never comes
    right after a cased one, and a lower-case character always does. *)
Definition title_cased (t : str) : Prop :=
  (∃ c, c ∈ t ∧ cased_char c = true) ∧
  (∀ c post, t = c :: post → islower_char c = false) ∧
  (∀ pre p c post, t = pre ++ p :: c :: post →
     (isupper_char c = true → cased_char p = false) ∧
     (islower_char c = true → cased_char p = true)).

(** The reading of the specification: every word starts with a capital. *)
Definition words_capitalized (t : str) : Prop :=
  Forall (λ w, ∃ c w', w = c :: w' ∧ isupper_char c = true) (split t).

(** The invariant of the loop of [istitle], started with the flags [prev]
    and [cased]. *)
Definition title_from (prev cased : bool) (s : str) : Prop :=
  (cased = true ∨ ∃ c, c ∈ s ∧ cased_char c = true) ∧
  (∀ c post, s = c :: post →
     (isupper_char c = true → prev = false) ∧
     (islower_char c = true → prev = true)) ∧
  (∀ pre p c post, s = pre ++ p :: c :: post →
     (isupper_char c = true → cased_char p = false) ∧
     (islower_char c = true → cased_char p = true)).

(** Block [x] is among the blocks the loop of step 5 puts under heading
    number [i]. *)
Definition member (doc : document) (K : option Z) (i : nat)
    (x : Z * block * Z) : Prop :=
  ∃ h, headings doc K !! i = Some h ∧
       x ∈ section_members (headings doc K) (flat_blocks doc) i h.

(** Position [k] lies from heading [i] on and before heading [i + 1]. *)
Definition within (hds : list heading) (i : nat) (k : Z * Z) : Prop :=
  ∃ h, hds !! i = Some h ∧ lex_le (heading_key h) k ∧
       ∀ n, hds !! (i + 1)%nat = Some n → lex_lt k (heading_key n).

(** At least [m] distinct values of [fs] lie below [x], itself in [fs]. *)
Definition below_at_least (fs : list Z) (m : nat) (x : Z) : Prop :=
  x ∈ fs ∧
  ∃ l, NoDup l ∧ length l = m ∧ ∀ y, y ∈ l → y ∈ fs ∧ y < x.

(** [t] neither starts nor ends with a white-space character. *)
Definition trimmed (t : str) : Prop :=
  (∀ c r, t = c :: r → isspace_char c = false) ∧
  (∀ r c, t = r ++ [c] → isspace_char c = false).

(** A block that reaches steps 3 and 4: type 0, with lines, with a span. *)
Definition counts (b : block) : bool :=
  text_block b && negb (is_empty (block_spans b)).

(** The document without the blocks that do not count. *)
Definition prune_page (p : page) : page :=
  Page (filter (λ b, counts b = true) (blocks p)).

Definition prune (doc : document) : document := map prune_page doc.

#[global] Instance lex_le_dec (a b : Z * Z) : Decision (lex_le a b).
Proof. unfold lex_le. apply _. Defined.

#[global] Instance lex_lt_dec (a b : Z * Z) : Decision (lex_lt a b).
Proof. unfold lex_lt. apply _. Defined.

(** [text] holds the word [w] somewhere, in any mix of upper and lower
    case. *)
Definition mentions (w text : str) : Prop :=
  ∃ pre mid post, text = pre ++ mid ++ post ∧ lower mid = w.

(** The reply of the service to the question about section [sec] says yes. *)
Definition says_yes (text : str) : Prop :=
  mentions (lit "yes") text ∨ mentions (lit "true") text.

(** A parsed value of the shape the evaluator accepts: an object whose
    ["variables"] is an object and whose ["rules"] is an array, not both
    empty. *)
Definition evaluation_model_shape (value : json) : Prop :=
  ∃ members variables rules,
    value = JObject members ∧
    obj_get (lit "variables") members = Some (JObject variables) ∧
    obj_get (lit "rules") members = Some (JArray rules) ∧
    (variables ≠ [] ∨ rules ≠ []).

(** The lines that present one section to the summarizer, and one matching
    section to the rule extractor. *)
Definition section_piece (sec : section) : str :=
  newline ++ newline ++ lit "===== SECTION: " ++ sec_section sec ++
  lit " =====" ++ newline ++ sec_text sec.

Definition matching_piece (r : section_result) : str :=
  newline ++ newline ++ lit "===== AVSNITT: " ++ r_section r ++
  lit " =====" ++ newline ++ r_content r.

(** [part] occurs in [text]. *)
Definition occurs_in (part text : str) : Prop :=
  ∃ pre post, text = pre ++ part ++ post.

(* ===================================================================== *)
(** * Sample documents *)
(* ===================================================================== *)


Definition one_line_block (t : string) (sz y : Z) : block :=
  Block 0 [Line [Span (lit t) sz (0, y, 0, 0)]].

Definition scenario : document :=
  [ Page [one_line_block "1. Introduction" 16 50; one_line_block "Intro body." 10 80];
    Page [one_line_block "2. Pricing" 16 40; one_line_block "Pricing body." 10 70] ].

Definition two_sizes_doc : document :=
  [ Page [ Block 0 [ Line [ Span (lit "a") 10 (0, 5, 0, 0);
                            Span (lit "B") 12 (0, 5, 0, 0) ] ] ] ].

Definition tie_doc : document :=
  [ Page [ one_line_block "1. Scope" 10 50; one_line_block "2. Price" 10 50 ] ].

(** Two headings whose blocks come in the opposite order of their
    positions. *)
Definition swapped_doc : document :=
  [ Page [ one_line_block "2. Pricing" 16 90; one_line_block "1. Scope" 16 20;
           one_line_block "the scope of the work" 10 40 ] ].

Definition floor_doc : document :=
  [ Page [ one_line_block "contents" 30 10; one_line_block "first part" 12 40;
           one_line_block "second part" 11 70; one_line_block "body" 10 90 ] ].

Definition blank_title_doc : document :=
  [ Page [ one_line_block " " 20 10;
           one_line_block "plain body text follows here today" 10 50 ] ].

Definition always_opens (doc : document) (path : str) : option document :=
  Some doc.

Definition scope_doc : document :=
  [ Page [ one_line_block "CALL FOR TENDERS" 20 10;
           one_line_block "1.2 Scope of Work" 10 50;
           one_line_block "the supplier shall deliver all goods on time" 10 80 ] ].

Definition mcdonald_block : block := one_line_block "McDonald Offer" 10 50.

Definition mcdonald_doc : document :=
  [ Page [ one_line_block "TENDER" 20 10; mcdonald_block ] ].

Definition title_doc : document :=
  [ Page [ one_line_block "TENDER" 20 10;
           one_line_block "Scope Of Work" 10 50 ] ].

Definition preface_block : block :=
  one_line_block "this invitation covers the whole framework agreement" 10 10.

Definition preface_doc : document :=
  [ Page [ preface_block; one_line_block "1. Scope" 16 50 ] ].

Definition shared_doc : document :=
  [ Page [ one_line_block "plain body text follows here today" 10 50;
           one_line_block "1. Scope" 16 50 ] ].

Definition plain_doc : document :=
  [ Page [ one_line_block "the supplier shall deliver all goods on time" 10 50;
           one_line_block "payment follows within thirty days of the invoice" 10 80 ] ].

Definition always_yes (i : nat) (prompt : str) : llm_reply :=
  Replied (lit "YES").

Definition replies (text : string) (prompt : str) : llm_reply :=
  Replied (lit text).

(** A parser that knows one text. *)
Definition loads_model (text : str) : json_outcome :=
  if str_eqb text (lit "{ }") then
    Parsed (JObject [ (lit "variables", JObject [(lit "bid_price", JNull)]);
                      (lit "rules", JArray []) ])
  else JSONDecodeError.

Definition sample_services (doc : document) (key : option str) : services :=
  Services (fun _ => inr doc) key (lit "criteria") (lit "summarize")
           always_yes None (replies "A price model.") (replies "{ }")
           loads_model.

Definition broken_services : services :=
  Services (fun _ => inl (lit "cannot open broken document")) (Some (lit "key"))
           (lit "criteria") (lit "summarize")
           always_yes None (replies "A price model.") (replies "{ }")
           loads_model.

(** The document decodes, the set-up of the summarizer's model raises. *)
Definition unconfigured_services : services :=
  Services (fun _ => inr scenario) (Some (lit "key"))
           (lit "criteria") (lit "summarize")
           always_yes (Some (lit "invalid transport"))
           (replies "A price model.") (replies "{ }") loads_model.

(* ===================================================================== *)
(** * Running the model *)
(* ===================================================================== *)

Example scenario_output :
  extract_document scenario None =
  Result [ Sec (lit "1. Introduction")
               (lit "1. Introduction" ++ newline ++ lit "Intro body.");
           Sec (lit "2. Pricing")
               (lit "2. Pricing" ++ newline ++ lit "Pricing body.") ].
Proof. vm_compute. reflexivity. Qed.

Example knee_example :
  infer_heading_sizes [20; 18; 12; 11; 10] = list_to_set [20; 18].
Proof. vm_compute. reflexivity. Qed.

(* ===================================================================== *)
(** * Facts about the builtins *)
(* ===================================================================== *)

Section Sorting.
Context {A : Type} (leb : A -> A -> bool).

Lemma insert_by_perm x l : insert_by leb x l ≡ₚ x :: l.
Proof.
  induction l as [|y l IH]; simpl; [done|].
  destruct (leb x y); [done|].
  rewrite IH. apply Permutation_swap.
Qed.

Lemma sorted_by_perm l : sorted_by leb l ≡ₚ l.
Proof.
  induction l as [|x l IH]; simpl; [done|].
  unfold sorted_by in *. simpl. rewrite insert_by_perm. by rewrite IH.
Qed.

Lemma elem_of_sorted_by x l : x ∈ sorted_by leb l ↔ x ∈ l.
Proof. by rewrite sorted_by_perm. Qed.

Lemma length_sorted_by l : length (sorted_by leb l) = length l.
Proof. by rewrite sorted_by_perm. Qed.

Hypothesis leb_total : ∀ x y, leb x y = true ∨ leb y x = true.
Hypothesis leb_trans :
  ∀ x y z, leb x y = true → leb y z = true → leb x z = true.

Lemma insert_by_sorted x l :
  StronglySorted (λ a b, leb a b = true) l →
  StronglySorted (λ a b, leb a b = true) (insert_by leb x l).
Proof.
  induction 1 as [|y l Hs IH Hall]; simpl.
  - repeat constructor.
  - destruct (leb x y) eqn:Hxy.
    + constructor; [by constructor|].
      constructor; [done|].
      eapply Forall_impl; [exact Hall|]. intros z Hz. eauto.
    + constructor; [done|].
      rewrite insert_by_perm. constructor; [|done].
      destruct (leb_total x y); congruence.
Qed.

Lemma sorted_by_sorted l :
  StronglySorted (λ a b, leb a b = true) (sorted_by leb l).
Proof.
  induction l as [|x l IH]; simpl; [constructor|].
  by apply insert_by_sorted.
Qed.
End Sorting.

Lemma key_leb_total a b : key_leb a b = true ∨ key_leb b a = true.
Proof.
  unfold key_leb. destruct a as [p y], b as [q z]; simpl.
  destruct (Z.ltb_spec p q), (Z.ltb_spec q p), (Z.eqb_spec p q),
    (Z.eqb_spec q p), (Z.leb_spec y z), (Z.leb_spec z y); simpl; auto; lia.
Qed.

Lemma key_leb_trans a b c :
  key_leb a b = true → key_leb b c = true → key_leb a c = true.
Proof.
  unfold key_leb. destruct a as [p y], b as [q z], c as [r w]; simpl.
  destruct (Z.ltb_spec p q), (Z.ltb_spec q r), (Z.ltb_spec p r),
    (Z.eqb_spec p q), (Z.eqb_spec q r), (Z.eqb_spec p r),
    (Z.leb_spec y z), (Z.leb_spec z w), (Z.leb_spec y w);
    simpl; auto; try lia; try discriminate.
Qed.

Lemma key_leb_lex a b : key_leb a b = true ↔ lex_le a b.
Proof.
  unfold key_leb, lex_le.
  destruct (Z.ltb_spec a.1 b.1), (Z.eqb_spec a.1 b.1), (Z.leb_spec a.2 b.2);
    simpl; split; intros; try done; try lia; auto.
Qed.

Lemma sorted_set_desc_elem x xs : x ∈ sorted_set_desc xs ↔ x ∈ xs.
Proof.
  unfold sorted_set_desc.
  by rewrite elem_of_sorted_by, elem_of_elements, elem_of_list_to_set.
Qed.

Lemma sorted_set_desc_NoDup xs : NoDup (sorted_set_desc xs).
Proof.
  unfold sorted_set_desc. rewrite sorted_by_perm. apply NoDup_elements.
Qed.

Lemma StronglySorted_strict (l : list Z) :
  NoDup l → StronglySorted (λ a b, (b <=? a) = true) l →
  StronglySorted (λ a b, b < a) l.
Proof.
  induction 2 as [|x l Hs IH Hall]; [constructor|].
  apply NoDup_cons in H as [Hx Hnd].
  constructor; [by apply IH|].
  apply Forall_forall. intros y Hy.
  rewrite Forall_forall in Hall. specialize (Hall y Hy).
  apply Z.leb_le in Hall.
  assert (y ≠ x) by (intros ->; by apply Hx).
  lia.
Qed.

Lemma sorted_set_desc_sorted xs :
  StronglySorted (λ a b, b < a) (sorted_set_desc xs).
Proof.
  apply StronglySorted_strict; [apply sorted_set_desc_NoDup|].
  unfold sorted_set_desc. apply sorted_by_sorted.
  - intros x y. rewrite !Z.leb_le. lia.
  - intros x y z. rewrite !Z.leb_le. lia.
Qed.

Section MaxBy.
Context {A : Type} (key : A -> Z).

Lemma max_by_first (d best : A) (l : list A) :
  ∃ i, (i < length (best :: l))%nat ∧
       nth i (best :: l) d = max_by key best l ∧
       (∀ j, (j < length (best :: l))%nat →
             key (nth j (best :: l) d) ≤ key (max_by key best l)) ∧
       (∀ j, (j < i)%nat →
             key (nth j (best :: l) d) < key (max_by key best l)).
Proof.
  revert best. induction l as [|x l IH]; intros best.
  - exists 0%nat. simpl. split; [lia|]. split; [done|].
    split; [|intros; lia].
    intros j Hj. assert (j = 0%nat) as -> by lia. simpl. lia.
  - simpl max_by. destruct (Z.ltb_spec (key best) (key x)) as [Hlt|Hge].
    + destruct (IH x) as (i & Hi & Hnth & Hall & Hbefore).
      assert (key x ≤ key (max_by key x l)) as Hx.
      { specialize (Hall 0%nat). simpl in Hall. apply Hall. lia. }
      exists (S i). split; [simpl in *; lia|].
      split; [exact Hnth|].
      split.
      * intros [|j] Hj; [simpl; lia|].
        apply (Hall j). simpl in *. lia.
      * intros [|j] Hj; [simpl; lia|].
        apply (Hbefore j). lia.
    + destruct (IH best) as (i & Hi & Hnth & Hall & Hbefore).
      assert (key best ≤ key (max_by key best l)) as Hb.
      { specialize (Hall 0%nat). simpl in Hall. apply Hall. lia. }
      destruct i as [|i].
      * exists 0%nat. simpl in *. split; [lia|]. split; [done|].
        split; [|intros; lia].
        intros [|[|j]] Hj; [lia|lia|].
        apply (Hall (S j)). lia.
      * exists (S (S i)). simpl in *. split; [lia|]. split; [done|].
        assert (key best < key (max_by key best l)) as Hb'.
        { apply (Hbefore 0%nat). lia. }
        split.
        -- intros [|[|j]] Hj; [lia|lia|].
           apply (Hall (S j)). lia.
        -- intros [|[|j]] Hj; [lia|lia|].
           apply (Hbefore (S j)). lia.
Qed.
End MaxBy.

Lemma nth_diffs (u : list Z) (n j : nat) (d : Z * nat) :
  (j < n)%nat →
  nth j (map (λ i, (gap u i, i)) (seq 0 n)) d = (gap u j, j).
Proof.
  intros Hj.
  rewrite (nth_indep _ d (gap u 0, 0%nat))
    by (rewrite List.length_map, List.length_seq; lia).
  rewrite (map_nth (λ i, (gap u i, i)) (seq 0 n) 0%nat j).
  by rewrite seq_nth.
Qed.

Lemma list_to_set_sorted_set_desc (xs : list Z) :
  (list_to_set (sorted_set_desc xs) : gset Z) = list_to_set xs.
Proof.
  apply set_eq. intros x.
  by rewrite !elem_of_list_to_set, sorted_set_desc_elem.
Qed.

Lemma infer_heading_sizes_spec (fs : list Z) :
  let u := sorted_set_desc fs in
  ((length u < 2)%nat → infer_heading_sizes fs = list_to_set fs) ∧
  ((2 ≤ length u)%nat →
   ∃ idx, is_knee u idx ∧
          infer_heading_sizes fs = list_to_set (take (idx + 1) u)).
Proof.
  intros u. unfold infer_heading_sizes. fold u.
  destruct (Nat.ltb_spec (length u) 2) as [Hlt|Hge].
  - split; [|lia]. intros _. apply list_to_set_sorted_set_desc.
  - split; [lia|]. intros _.
    set (n := (length u - 1)%nat).
    destruct (map (λ i, (gap u i, i)) (seq 0 n)) as [|d diffs'] eqn:Hd.
    { apply (f_equal length) in Hd.
      rewrite List.length_map, List.length_seq in Hd. simpl in Hd. lia. }
    destruct (max_by_first fst d d diffs') as (i & Hi & Hnth & Hall & Hbefore).
    assert (length (d :: diffs') = n) as Hlen.
    { rewrite <- Hd. by rewrite List.length_map, List.length_seq. }
    rewrite Hlen in Hi, Hall.
    rewrite <- Hd in Hnth, Hall, Hbefore.
    rewrite nth_diffs in Hnth by done.
    destruct (max_by fst d diffs') as [max_gap idx].
    injection Hnth as Hgap Hidx. subst idx max_gap.
    exists i. split; [|done].
    split; [lia|]. split.
    + intros j Hj. specialize (Hall j). rewrite nth_diffs in Hall by lia.
      simpl in Hall. apply Hall. lia.
    + intros j Hj. specialize (Hbefore j Hj).
      rewrite nth_diffs in Hbefore by lia. simpl in Hbefore. lia.
Qed.

Lemma infer_heading_sizes_perm (fs fs' : list Z) :
  fs ≡ₚ fs' → infer_heading_sizes fs = infer_heading_sizes fs'.
Proof.
  intros Hp. unfold infer_heading_sizes, sorted_set_desc.
  by rewrite (list_to_set_perm_L (C:=gset Z) fs fs' Hp).
Qed.

Lemma round53_small (x : Z) : Z.abs x < 2 ^ 53 → round53 x = x.
Proof.
  intros Hx. unfold round53.
  destruct (Z.leb_spec (Z.log2 (Z.abs x) - 52) 0) as [|Hgt]; [done|].
  assert (0 < Z.abs x) as Hpos.
  { destruct (Z.eq_dec (Z.abs x) 0) as [H0|H0]; [|lia].
    rewrite H0 in Hgt. simpl in Hgt. lia. }
  apply Z.log2_lt_pow2 in Hx; [lia|done].
Qed.

Lemma is_knee_exact_of_computed (u : list Z) (idx : nat) :
  (∀ j, (j + 1 < length u)%nat → round53 (exact_gap u j) = exact_gap u j) →
  is_knee u idx → is_knee_exact u idx.
Proof.
  intros Hexact (Hidx & Hall & Hbefore).
  assert (∀ j, (j + 1 < length u)%nat → gap u j = exact_gap u j) as Hgap.
  { intros j Hj. unfold gap, fsub. by apply Hexact. }
  split; [done|]. split.
  - intros j Hj. rewrite <- !Hgap by done. by apply Hall.
  - intros j Hj. rewrite <- !Hgap by lia. by apply Hbefore.
Qed.

(** C1, as stated, fails: for the sizes 22.3, 14.3 and 6.3 the larger exact
    gap is the second one, by [2^-50], so the claim gives the sizes 22.3 and
    14.3; the two differences computed in floating point are both 8.0, the
    first one wins the tie and only 22.3 is returned. *)
Lemma largest_exact_gap_not_chosen :
  is_double d22_3 ∧ is_double d14_3 ∧ is_double d6_3 ∧
  exact_gap [d22_3; d14_3; d6_3] 0 < exact_gap [d22_3; d14_3; d6_3] 1 ∧
  gap [d22_3; d14_3; d6_3] 0 = gap [d22_3; d14_3; d6_3] 1 ∧
  infer_heading_sizes [d22_3; d14_3; d6_3] = {[d22_3]} ∧
  (∀ idx, is_knee_exact [d22_3; d14_3; d6_3] idx →
          infer_heading_sizes [d22_3; d14_3; d6_3]
            ≠ list_to_set (take (idx + 1) [d22_3; d14_3; d6_3])).
Proof.
  split; [vm_compute; reflexivity|]. split; [vm_compute; reflexivity|].
  split; [vm_compute; reflexivity|]. split; [vm_compute; reflexivity|].
  split; [vm_compute; reflexivity|]. split; [vm_compute; reflexivity|].
  intros idx (Hidx & Hall & _).
  assert (idx = 1%nat) as ->.
  { destruct idx as [|[|idx]]; [|done|simpl in Hidx; lia].
    specialize (Hall 1%nat). vm_compute in Hall.
    exfalso. apply Hall; [|reflexivity]. repeat constructor. }
  replace (infer_heading_sizes [d22_3; d14_3; d6_3]) with ({[d22_3]} : gset Z)
    by (vm_compute; reflexivity).
  intros Heq.
  assert (d14_3 ∈ ({[d22_3]} : gset Z)) as Hin.
  { rewrite Heq. apply elem_of_list_to_set. simpl. right. left. }
  apply elem_of_singleton in Hin. vm_compute in Hin. discriminate.
Qed.

(** C1, amended. The heading-sized set depends only on the multiset of font
    sizes and is cut out of the distinct sizes in descending order [u]: for
    at least two distinct sizes it is the prefix of [u] that ends just above
    the largest gap between neighbours, each gap being the difference as
    the code computes it in floating point (the exact difference rounded to
    the nearest double), and the first such gap when several computed gaps
    are largest; for fewer than two it is every size.  When every
    difference of neighbours is itself a double, these are the exact gaps.
    The sizes 20, 18, 12, 11, 10 give 20 and 18; no size gives the empty set
    and the single size 12 gives 12. *)
Theorem infer_heading_sizes_largest_gap :
  (∀ font_sizes : list Z,
    ∃ u : list Z,
      StronglySorted (λ a b, b < a) u ∧
      (∀ x, x ∈ u ↔ x ∈ font_sizes) ∧
      (((length u < 2)%nat ∧
        infer_heading_sizes font_sizes = list_to_set font_sizes) ∨
       ((2 ≤ length u)%nat ∧
        ∃ idx, is_knee u idx ∧
          ((∀ j, (j + 1 < length u)%nat →
                 round53 (exact_gap u j) = exact_gap u j) →
           is_knee_exact u idx) ∧
          infer_heading_sizes font_sizes = list_to_set (take (idx + 1) u)))) ∧
  (∀ fs fs' : list Z,
     fs ≡ₚ fs' → infer_heading_sizes fs = infer_heading_sizes fs') ∧
  (∀ x, Z.abs x < 2 ^ 53 → round53 x = x) ∧
  infer_heading_sizes [20; 18; 12; 11; 10] = {[20; 18]} ∧
  infer_heading_sizes [] = ∅ ∧
  infer_heading_sizes [12] = {[12]}.
Proof.
  split; [|split; [apply infer_heading_sizes_perm|]];
    [|split; [apply round53_small|repeat split; vm_compute; reflexivity]].
  intros fs. exists (sorted_set_desc fs).
  split; [apply sorted_set_desc_sorted|].
  split; [intros x; apply sorted_set_desc_elem|].
  destruct (infer_heading_sizes_spec fs) as [Hfew Hmany].
  destruct (Nat.lt_ge_cases (length (sorted_set_desc fs)) 2) as [Hlt|Hge].
  - left. split; [done|]. by apply Hfew.
  - right. split; [done|]. destruct (Hmany Hge) as (idx & Hknee & Heq).
    exists idx. split; [done|]. split; [|done].
    intros Hexact. by apply is_knee_exact_of_computed.
Qed.

(* ===================================================================== *)
(** * The loops as comprehensions *)
(* ===================================================================== *)

Lemma fold_left_appending {A B} (f : list B → A → list B) (l : list A) :
  (∀ acc x, f acc x = acc ++ f [] x) →
  ∀ acc, fold_left f l acc = acc ++ flat_map (f []) l.
Proof.
  intros Hf. induction l as [|x l IH]; intros acc; simpl.
  - by rewrite app_nil_r.
  - rewrite IH, Hf. by rewrite <- app_assoc.
Qed.

Lemma collect_line_app fs ln : collect_line fs ln = fs ++ collect_line [] ln.
Proof. unfold collect_line. destruct (spans ln); simpl; by rewrite ?app_nil_r. Qed.

Lemma collect_block_eq fs acc b :
  collect_block (fs, acc) b =
  if text_block b then (fs ++ block_sizes b, acc ++ [b]) else (fs, acc).
Proof.
  unfold collect_block, text_block, block_sizes.
  destruct (btype b =? 0), (is_empty (lines b)); simpl; try done.
  by rewrite (fold_left_appending collect_line _ collect_line_app).
Qed.

Lemma collect_block_fold (bs : list block) (fs : list Z) (acc : list block) :
  fold_left collect_block bs (fs, acc) =
  (fs ++ flat_map block_sizes (filter (λ b, text_block b = true) bs),
   acc ++ filter (λ b, text_block b = true) bs).
Proof.
  revert fs acc. induction bs as [|b bs IH]; intros fs acc.
  - simpl. by rewrite !app_nil_r.
  - cbn [fold_left]. rewrite collect_block_eq.
    destruct (text_block b) eqn:Hb.
    + rewrite filter_cons_True by done. rewrite IH. simpl.
      by rewrite <- !app_assoc.
    + rewrite filter_cons_False by (rewrite Hb; done). by rewrite IH.
Qed.

Lemma collect_page_fold (doc : document) n fs pbs :
  fold_left collect_page doc (n, fs, pbs) =
  (n + Z.of_nat (length doc),
   fs ++ flat_map page_sizes doc,
   pbs ++ imap (λ i p, (n + Z.of_nat i, kept_blocks p)) doc).
Proof.
  revert n fs pbs. induction doc as [|p doc IH]; intros n fs pbs.
  - simpl. by rewrite Z.add_0_r, !app_nil_r.
  - cbn [fold_left collect_page]. rewrite collect_block_fold. simpl app at 2.
    rewrite IH. f_equal; [f_equal|].
    + simpl length. lia.
    + simpl. by rewrite <- app_assoc.
    + rewrite <- app_assoc. f_equal. simpl. f_equal.
      * by rewrite Z.add_0_r.
      * apply imap_ext. intros i x _. simpl. f_equal. lia.
Qed.

Lemma font_sizes_eq doc : font_sizes doc = flat_map page_sizes doc.
Proof. unfold font_sizes, collect. by rewrite collect_page_fold. Qed.

Lemma pages_blocks_eq doc :
  pages_blocks doc = imap (λ i p, (1 + Z.of_nat i, kept_blocks p)) doc.
Proof. unfold pages_blocks, collect. by rewrite collect_page_fold. Qed.

Section MaxByFacts.
Context {A : Type} (key : A -> Z).

Lemma max_by_elem (best : A) (l : list A) : max_by key best l ∈ best :: l.
Proof.
  destruct (max_by_first key best best l) as (i & Hi & Hnth & _).
  rewrite <- Hnth. apply list_elem_of_In. by apply nth_In.
Qed.

Lemma max_by_ge (best : A) (l : list A) x :
  x ∈ best :: l → key x ≤ key (max_by key best l).
Proof.
  intros Hx. apply list_elem_of_In in Hx.
  destruct (In_nth _ _ best Hx) as (j & Hj & <-).
  destruct (max_by_first key best best l) as (i & _ & _ & Hall & _).
  by apply Hall.
Qed.
End MaxByFacts.

Lemma flat_map_flat_map {A B C} (f : A → list B) (g : B → list C) l :
  flat_map g (flat_map f l) = flat_map (λ x, flat_map g (f x)) l.
Proof.
  induction l as [|x l IH]; simpl; [done|].
  by rewrite flat_map_app, IH.
Qed.

Lemma font_sizes_lines doc :
  font_sizes doc = flat_map (collect_line []) (text_lines doc).
Proof.
  rewrite font_sizes_eq. unfold text_lines.
  rewrite flat_map_flat_map. apply flat_map_ext. intros p.
  unfold page_sizes. by rewrite flat_map_flat_map.
Qed.

Lemma collect_line_largest (lns : list line) :
  Forall2 largest_of (filter (λ ln, has_spans ln = true) lns)
          (flat_map (collect_line []) lns).
Proof.
  induction lns as [|ln lns IH]; simpl; [constructor|].
  unfold collect_line at 1, has_spans at 1.
  destruct (spans ln) as [|s rest] eqn:Hsp.
  - rewrite filter_cons_False by (unfold has_spans; rewrite Hsp; simpl; done).
    done.
  - rewrite filter_cons_True by (unfold has_spans; by rewrite Hsp).
    simpl. constructor; [|done].
    unfold largest_of. rewrite Hsp. split.
    + exists (max_by s_size s rest). split; [apply max_by_elem|done].
    + intros sp Hin. by apply max_by_ge.
Qed.

(** C2, as stated, fails: a span of size 10 sharing its line with a span of
    size 12 leaves no trace in the font sizes handed to the classifier. *)
Lemma font_sizes_not_every_span :
  ∃ sp, sp ∈ text_spans two_sizes_doc ∧
        s_size sp ∉ font_sizes two_sizes_doc.
Proof.
  exists (Span (lit "a") 10 (0, 5, 0, 0)). split.
  - vm_compute. constructor.
  - replace (font_sizes two_sizes_doc) with [12] by (vm_compute; reflexivity).
    simpl. intros H%list_elem_of_singleton. discriminate.
Qed.

(** C2, amended. The font sizes handed to the heading-size classifier are,
    in document order, one per line that has a span, over the lines of the
    blocks of type 0 that have lines: the largest font size among the spans
    of that line. *)
Theorem font_sizes_one_per_line :
  ∀ doc : document,
    Forall2 largest_of
            (filter (λ ln, has_spans ln = true) (text_lines doc))
            (font_sizes doc).
Proof.
  intros doc. rewrite font_sizes_lines. apply collect_line_largest.
Qed.

Lemma elem_of_placed doc pg b :
  (pg, b) ∈ placed doc ↔
  ∃ (i : nat) p, doc !! i = Some p ∧ pg = 1 + Z.of_nat i ∧
                 b ∈ blocks p ∧ text_block b = true.
Proof.
  unfold placed. rewrite pages_blocks_eq.
  rewrite list_elem_of_In, in_flat_map. split.
  - intros ([pg' bs] & Hpb & Hin). simpl in Hin.
    apply list_elem_of_In, elem_of_lookup_imap in Hpb as (i & p & Heq & Hp).
    injection Heq as -> ->.
    apply in_map_iff in Hin as (b' & Heq & Hb'). injection Heq as Hpg Hb.
    apply list_elem_of_In in Hb'. unfold kept_blocks in Hb'.
    apply list_elem_of_filter in Hb' as [Ht Hb'].
    subst. eauto 10.
  - intros (i & p & Hp & -> & Hb & Ht).
    exists (1 + Z.of_nat i, kept_blocks p). split.
    + apply list_elem_of_In, elem_of_lookup_imap. eauto.
    + simpl. apply in_map. apply list_elem_of_In.
      unfold kept_blocks. by apply list_elem_of_filter.
Qed.

Lemma heading_block_app hs pg acc b :
  heading_block hs pg acc b = acc ++ heading_block hs pg [] b.
Proof.
  unfold heading_block. destruct (block_spans b); [by rewrite app_nil_r|].
  destruct (is_empty _); [by rewrite app_nil_r|].
  destruct (negb _); [by rewrite app_nil_r|]. done.
Qed.

Lemma is_empty_false {A} (l : list A) : is_empty l = false ↔ l ≠ [].
Proof. destruct l; simpl; split; congruence. Qed.

Lemma elem_of_heading_block hs pg b h :
  h ∈ heading_block hs pg [] b ↔ generates hs pg b h.
Proof.
  unfold heading_block, generates, block_title, block_y0, block_size.
  destruct (block_spans b) as [|s rest] eqn:Hsp.
  { split; [by intros ?%elem_of_nil|]. by intros [? _]. }
  set (t := strip (concat (map s_text (s :: rest)))).
  destruct (is_empty t) eqn:Ht.
  { split; [by intros ?%elem_of_nil|].
    intros (_ & Hne & _). destruct t; done. }
  apply is_empty_false in Ht.
  destruct (is_heading hs _ t) eqn:Hh; simpl.
  - rewrite list_elem_of_singleton. split; [by intros ->|by intros (_ & _ & _ & ->)].
  - split; [by intros ?%elem_of_nil|]. by intros (_ & _ & ? & _).
Qed.

Lemma flat_block_app pg acc b :
  flat_block pg acc b = acc ++ flat_block pg [] b.
Proof. unfold flat_block. destruct (block_spans b); by rewrite ?app_nil_r. Qed.

Lemma elem_of_flat_block pg b x :
  x ∈ flat_block pg [] b ↔ block_spans b ≠ [] ∧ x = (pg, b, block_y0 b).
Proof.
  unfold flat_block, block_y0. destruct (block_spans b) as [|s rest].
  - split; [by intros ?%elem_of_nil|]. by intros [? _].
  - simpl. rewrite list_elem_of_singleton.
    split; [by intros ->|by intros [_ ->]].
Qed.

Lemma flat_map_placed {B} (f : Z → block → list B) (pbs : list (Z * list block)) :
  flat_map (λ pb, flat_map (f pb.1) pb.2) pbs =
  flat_map (λ x, f x.1 x.2) (flat_map (λ pb, map (pair pb.1) pb.2) pbs).
Proof.
  rewrite flat_map_flat_map. apply flat_map_ext. intros [pg bs]. simpl.
  induction bs as [|b bs IH]; simpl; [done|]. by rewrite IH.
Qed.

Lemma headings_eq doc K :
  headings doc K =
  sorted_by (λ a b, key_leb (heading_key a) (heading_key b))
            (found_headings doc K).
Proof.
  unfold headings, found_headings. f_equal.
  set (hs := heading_sizes doc K).
  rewrite (fold_left_appending (heading_page hs)).
  - unfold placed.
    rewrite <- (flat_map_placed (λ pg b, heading_block hs pg [] b)).
    apply flat_map_ext. intros [pg bs]. unfold heading_page. simpl.
    by rewrite (fold_left_appending _ _ (heading_block_app hs pg)).
  - intros acc [pg bs]. unfold heading_page. simpl.
    by rewrite !(fold_left_appending _ _ (heading_block_app hs pg)).
Qed.

Lemma flat_blocks_eq doc :
  flat_blocks doc =
  sorted_by (λ a b, key_leb (flat_key a) (flat_key b)) (found_blocks doc).
Proof.
  unfold flat_blocks, found_blocks. f_equal.
  rewrite (fold_left_appending flat_page).
  - unfold placed.
    rewrite <- (flat_map_placed (λ pg b, flat_block pg [] b)).
    apply flat_map_ext. intros [pg bs]. unfold flat_page. simpl.
    by rewrite (fold_left_appending _ _ (flat_block_app pg)).
  - intros acc [pg bs]. unfold flat_page. simpl.
    by rewrite !(fold_left_appending _ _ (flat_block_app pg)).
Qed.

Lemma elem_of_headings doc K h :
  h ∈ headings doc K ↔
  ∃ pg b, (pg, b) ∈ placed doc ∧ generates (heading_sizes doc K) pg b h.
Proof.
  rewrite headings_eq, elem_of_sorted_by. unfold found_headings.
  rewrite list_elem_of_In, in_flat_map. split.
  - intros ([pg b] & Hin & Hh). exists pg, b.
    split; [by apply list_elem_of_In|].
    by apply elem_of_heading_block, list_elem_of_In.
  - intros (pg & b & Hin & Hg). exists (pg, b).
    split; [by apply list_elem_of_In|].
    by apply list_elem_of_In, elem_of_heading_block.
Qed.

Lemma elem_of_flat_blocks doc x :
  x ∈ flat_blocks doc ↔
  ∃ pg b, (pg, b) ∈ placed doc ∧ block_spans b ≠ [] ∧ x = (pg, b, block_y0 b).
Proof.
  rewrite flat_blocks_eq, elem_of_sorted_by. unfold found_blocks.
  rewrite list_elem_of_In, in_flat_map. split.
  - intros ([pg b] & Hin & Hh). exists pg, b.
    split; [by apply list_elem_of_In|].
    by apply elem_of_flat_block, list_elem_of_In.
  - intros (pg & b & Hin & Hg). exists (pg, b).
    split; [by apply list_elem_of_In|].
    by apply list_elem_of_In, elem_of_flat_block.
Qed.

(* ===================================================================== *)
(** * Sections and headings *)
(* ===================================================================== *)

Lemma block_title_spans b : block_title b ≠ [] → block_spans b ≠ [].
Proof. unfold block_title. intros Hne Hsp. by rewrite Hsp in Hne. Qed.

Lemma generates_intro hs pg b :
  block_title b ≠ [] →
  is_heading hs (block_size b) (block_title b) = true →
  generates hs pg b (Heading pg (block_y0 b) (block_title b)).
Proof. intros Ht Hh. repeat split; auto using block_title_spans. Qed.

Lemma content_lookup doc K i :
  content (extract_document doc K) !! i =
  (λ h, Sec (h_text h)
            (section_body (headings doc K) (flat_blocks doc) i h))
    <$> headings doc K !! i.
Proof. unfold extract_document, group_sections. simpl. apply list_lookup_imap. Qed.

Lemma StronglySorted_impl {A} (R1 R2 : A → A → Prop) (l : list A) :
  (∀ x y, R1 x y → R2 x y) → StronglySorted R1 l → StronglySorted R2 l.
Proof.
  intros HR. induction 1 as [|x l Hs IH Hall]; constructor; [done|].
  eapply Forall_impl; [exact Hall|]. intros y. apply HR.
Qed.

Lemma headings_sorted doc K :
  StronglySorted (λ a b, lex_le (heading_key a) (heading_key b))
                 (headings doc K).
Proof.
  rewrite headings_eq.
  eapply StronglySorted_impl; [|apply sorted_by_sorted].
  - intros a b Hab. by apply key_leb_lex.
  - intros. apply key_leb_total.
  - intros ???. apply key_leb_trans.
Qed.

Lemma flat_blocks_sorted doc :
  StronglySorted (λ a b, lex_le (flat_key a) (flat_key b)) (flat_blocks doc).
Proof.
  rewrite flat_blocks_eq.
  eapply StronglySorted_impl; [|apply sorted_by_sorted].
  - intros a b Hab. by apply key_leb_lex.
  - intros. apply key_leb_total.
  - intros ???. apply key_leb_trans.
Qed.

(** Insertion sort is stable: the elements of one key keep their order. *)
Section Stable.
Context {A : Type} (key : A → Z * Z).

Lemma key_leb_refl (k : Z * Z) : key_leb k k = true.
Proof. apply key_leb_lex. unfold lex_le. lia. Qed.

Lemma filter_insert_by (k : Z * Z) (x : A) (l : list A) :
  filter (λ y, key y = k) (insert_by (λ a b, key_leb (key a) (key b)) x l) =
  filter (λ y, key y = k) (x :: l).
Proof.
  induction l as [|y l IH]; [done|]. simpl.
  destruct (key_leb (key x) (key y)) eqn:Hxy; [done|].
  destruct (decide (key y = k)) as [Hy|Hy].
  - assert (key x ≠ k) as Hx.
    { intros Hx. rewrite Hx, Hy, key_leb_refl in Hxy. done. }
    rewrite (filter_cons_True _ y) by done. rewrite IH.
    rewrite (filter_cons_False _ x) by done.
    rewrite (filter_cons_False _ x) by done.
    by rewrite (filter_cons_True _ y).
  - rewrite (filter_cons_False _ y) by done. rewrite IH.
    destruct (decide (key x = k)) as [Hx|Hx].
    + rewrite !(filter_cons_True _ x) by done.
      by rewrite (filter_cons_False _ y).
    + rewrite !(filter_cons_False _ x) by done.
      by rewrite (filter_cons_False _ y).
Qed.

Lemma filter_sorted_by (k : Z * Z) (l : list A) :
  filter (λ y, key y = k) (sorted_by (λ a b, key_leb (key a) (key b)) l) =
  filter (λ y, key y = k) l.
Proof.
  induction l as [|x l IH]; [done|].
  unfold sorted_by in *. simpl. rewrite filter_insert_by.
  destruct (decide (key x = k)).
  - rewrite !(filter_cons_True _ x) by done. by rewrite IH.
  - rewrite !(filter_cons_False _ x) by done. by rewrite IH.
Qed.
End Stable.

Lemma StronglySorted_lookup {A} (R : A → A → Prop) (l : list A) i j x y :
  StronglySorted R l → (i < j)%nat → l !! i = Some x → l !! j = Some y → R x y.
Proof.
  intros Hs. revert i j. induction Hs as [|a l Hs IH Hall]; intros i j Hij Hi Hj.
  - done.
  - destruct j as [|j]; [lia|]. simpl in Hj. destruct i as [|i].
    + simpl in Hi. injection Hi as ->.
      rewrite Forall_forall in Hall. apply Hall.
      by eapply list_elem_of_lookup_2.
    + simpl in Hi. apply (IH i j); [lia|done|done].
Qed.

(** C9, as stated, fails: two headings at the same height of the same page
    are consecutive and neither is strictly before the other. *)
Lemma headings_tie_not_strict :
  ∃ (i : nat) h h',
    headings tie_doc None !! i = Some h ∧
    headings tie_doc None !! (i + 1)%nat = Some h' ∧
    ¬ lex_lt (heading_key h) (heading_key h').
Proof.
  exists 0%nat, (Heading 1 50 (lit "1. Scope")), (Heading 1 50 (lit "2. Price")).
  split; [vm_compute; reflexivity|].
  split; [vm_compute; reflexivity|].
  intros [Hlt|[_ Hlt]]; simpl in Hlt; lia.
Qed.

(** C9, amended. The sections follow their owning headings, and the (page,
    vertical position) pairs of the owning headings of consecutive sections
    never decrease: the later one is greater or equal, lexicographically. *)
Theorem sections_ordered_by_heading :
  ∀ (doc : document) (K : option Z) (i : nat) (s s' : section),
    content (extract_document doc K) !! i = Some s →
    content (extract_document doc K) !! (i + 1)%nat = Some s' →
    ∃ h h',
      headings doc K !! i = Some h ∧
      headings doc K !! (i + 1)%nat = Some h' ∧
      sec_section s = h_text h ∧ sec_section s' = h_text h' ∧
      lex_le (heading_key h) (heading_key h').
Proof.
  intros doc K i s s'. rewrite !content_lookup.
  destruct (headings doc K !! i) as [h|] eqn:Hi; [|done].
  destruct (headings doc K !! (i + 1)%nat) as [h'|] eqn:Hi'; [|done].
  simpl. intros [= <-] [= <-]. exists h, h'. do 4 (split; [done|]).
  apply (StronglySorted_lookup
           (λ a b, lex_le (heading_key a) (heading_key b))
           (headings doc K) i (i + 1) h h');
    [apply headings_sorted | lia | done | done].
Qed.

Lemma sections_ordered_by_heading_witness :
  ∃ h h',
    headings scenario None !! 0%nat = Some h ∧
    headings scenario None !! (0 + 1)%nat = Some h' ∧
    lit "1. Introduction" = h_text h ∧ lit "2. Pricing" = h_text h' ∧
    lex_le (heading_key h) (heading_key h').
Proof.
  apply (sections_ordered_by_heading scenario None 0
           (Sec (lit "1. Introduction")
                (lit "1. Introduction" ++ newline ++ lit "Intro body."))
           (Sec (lit "2. Pricing")
                (lit "2. Pricing" ++ newline ++ lit "Pricing body.")));
    vm_compute; reflexivity.
Defined.

(** C10. The output has one section per detected heading candidate, in the
    sorted order of the candidates, whether or not the section has a body:
    the list of candidates the sections follow is the list of detected ones
    rearranged, it ascends by (page, y0), and the candidates of one position
    keep the order of detection, which fixes the list; the title of a
    section is the trimmed text of the block that produced the candidate and
    is never empty, because a block whose trimmed text is empty produces no
    candidate.  Two candidates detected in the opposite order of their
    positions give their sections in the order of the positions. *)
Theorem one_section_per_heading :
  (∀ (doc : document) (K : option Z),
     headings doc K ≡ₚ found_headings doc K ∧
     StronglySorted (λ a b, lex_le (heading_key a) (heading_key b))
                    (headings doc K) ∧
     (∀ k : Z * Z,
        filter (λ h, heading_key h = k) (headings doc K) =
        filter (λ h, heading_key h = k) (found_headings doc K)) ∧
     sec_section <$> content (extract_document doc K) =
       h_text <$> headings doc K ∧
     (∀ (i : nat) h, headings doc K !! i = Some h →
        (∃ body,
           content (extract_document doc K) !! i = Some (Sec (h_text h) body)) ∧
        h_text h ≠ [] ∧
        ∃ pg b, (pg, b) ∈ placed doc ∧
                generates (heading_sizes doc K) pg b h ∧
                h_text h = block_title b)) ∧
  (∀ hs pg acc b, block_title b = [] → heading_block hs pg acc b = acc) ∧
  content (extract_document tie_doc None) =
    [ Sec (lit "1. Scope") [];
      Sec (lit "2. Price") (lit "1. Scope" ++ newline ++ lit "2. Price") ] ∧
  h_text <$> found_headings swapped_doc None =
    [ lit "2. Pricing"; lit "1. Scope" ] ∧
  sec_section <$> content (extract_document swapped_doc None) =
    [ lit "1. Scope"; lit "2. Pricing" ].
Proof.
  split; [|split; [|repeat split; vm_compute; reflexivity]].
  - intros doc K. split; [|split; [|split; [|split]]].
    + rewrite headings_eq. apply sorted_by_perm.
    + apply headings_sorted.
    + intros k. rewrite headings_eq. apply filter_sorted_by.
    + apply list_eq. intros i.
      rewrite !list_lookup_fmap, content_lookup.
      by destruct (headings doc K !! i).
    + intros i h Hi. split; [|].
      * eexists. rewrite content_lookup, Hi. done.
      * assert (h ∈ headings doc K) as Hin
          by (by eapply list_elem_of_lookup_2).
        apply elem_of_headings in Hin as (pg & b & Hpl & Hg).
        pose proof Hg as (Hsp & Ht & Hh & ->). simpl.
        split; [done|]. eauto.
  - intros hs pg acc b Ht. unfold heading_block.
    destruct (block_spans b) as [|s rest] eqn:Hsp; [done|].
    unfold block_title in Ht. rewrite Hsp in Ht. by rewrite Ht.
Qed.

Lemma one_section_per_heading_witness :
  headings scenario None !! 1%nat = Some (Heading 2 40 (lit "2. Pricing")) ∧
  (∃ body,
     content (extract_document scenario None) !! 1%nat
       = Some (Sec (lit "2. Pricing") body)) ∧
  lit "2. Pricing" ≠ [].
Proof.
  assert (headings scenario None !! 1%nat
          = Some (Heading 2 40 (lit "2. Pricing"))) as Hi
    by (vm_compute; reflexivity).
  split; [exact Hi|].
  destruct (proj1 one_section_per_heading scenario None)
    as (_ & _ & _ & _ & H).
  destruct (H 1%nat _ Hi) as (Hbody & Hne & _).
  split; [exact Hbody|exact Hne].
Defined.

(* ===================================================================== *)
(** * The forced floor *)
(* ===================================================================== *)

Lemma top_k_distinct_take (fs : list Z) (k : nat) (x : Z) :
  top_k_distinct fs k x ↔ x ∈ take k (sorted_set_desc fs).
Proof.
  pose proof (sorted_set_desc_sorted fs) as Hs.
  pose proof (sorted_set_desc_NoDup fs) as Hnd.
  split.
  - intros [Hx Hk]. apply sorted_set_desc_elem in Hx.
    apply list_elem_of_split in Hx as (u1 & u2 & Hu).
    rewrite Hu in Hs, Hnd.
    assert (length u1 < k)%nat as Hlt.
    { apply Hk.
      - by apply NoDup_app in Hnd as (? & _ & _).
      - intros y Hy. split.
        + apply sorted_set_desc_elem. rewrite Hu. apply elem_of_app. by left.
        + apply (StronglySorted_app_1_elem_of _ _ _ y x Hs Hy). by left. }
    rewrite Hu. apply elem_of_take. exists (length u1). split; [|done].
    by rewrite list_lookup_middle.
  - intros Hx. apply elem_of_take in Hx as (i & Hi & Hik).
    split.
    { apply sorted_set_desc_elem. by eapply list_elem_of_lookup_2. }
    intros l Hl Hall.
    pose proof (take_drop_middle _ _ _ Hi) as Hu.
    assert (l ⊆+ take i (sorted_set_desc fs)) as Hsub.
    { apply NoDup_submseteq; [done|]. intros y Hy.
      destruct (Hall y Hy) as [Hyfs Hxy].
      apply sorted_set_desc_elem in Hyfs. rewrite <- Hu in Hyfs.
      apply elem_of_app in Hyfs as [Hy1|Hy2]; [done|].
      rewrite <- Hu in Hs. apply StronglySorted_app_1_r in Hs.
      apply elem_of_cons in Hy2 as [->|Hy2]; [lia|].
      apply StronglySorted_inv in Hs as [_ Hs].
      rewrite Forall_forall in Hs. specialize (Hs y Hy2). lia. }
    apply submseteq_length in Hsub. rewrite length_take in Hsub. lia.
Qed.

(** C7. With a positive [heading_font_count] K, every size among the K
    largest distinct font sizes handed to the classifier is in the final
    heading-sized set, whatever the gap detector selected; these are all
    the distinct sizes when there are fewer than K. *)
Theorem forced_floor_top_sizes :
  ∀ (doc : document) (K : Z),
    0 < K →
    (∀ x, top_k_distinct (font_sizes doc) (Z.to_nat K) x →
          x ∈ heading_sizes doc (Some K)) ∧
    list_to_set (take (Z.to_nat K) (sorted_set_desc (font_sizes doc)))
      ⊆ heading_sizes doc (Some K) ∧
    ((length (sorted_set_desc (font_sizes doc)) ≤ Z.to_nat K)%nat →
     ∀ x, x ∈ font_sizes doc → x ∈ heading_sizes doc (Some K)).
Proof.
  intros doc K HK.
  assert (list_to_set (take (Z.to_nat K) (sorted_set_desc (font_sizes doc)))
            ⊆ heading_sizes doc (Some K)) as Hsub.
  { unfold heading_sizes, slice_to.
    destruct (Z.eqb_spec K 0) as [->|_]; [lia|].
    destruct (Z.leb_spec 0 K); [|lia].
    apply union_subseteq_r. }
  split; [|split; [done|]].
  - intros x Hx. apply Hsub, elem_of_list_to_set.
    by apply top_k_distinct_take.
  - intros Hlen x Hx. apply Hsub, elem_of_list_to_set.
    rewrite take_ge by done. by apply sorted_set_desc_elem.
Qed.

Lemma forced_floor_top_sizes_witness :
  infer_heading_sizes (font_sizes floor_doc) = {[30]} ∧
  (list_to_set (take 3 (sorted_set_desc (font_sizes floor_doc))) : gset Z)
    = {[30; 12; 11]} ∧
  list_to_set (take (Z.to_nat 3) (sorted_set_desc (font_sizes floor_doc)))
    ⊆ heading_sizes floor_doc (Some 3).
Proof.
  split; [vm_compute; reflexivity|].
  split; [vm_compute; reflexivity|].
  apply (forced_floor_top_sizes floor_doc 3). lia.
Defined.

(* ===================================================================== *)
(** * Documents without headings *)
(* ===================================================================== *)

Lemma headings_nil doc K :
  (∀ pg b h, (pg, b) ∈ placed doc → ¬ generates (heading_sizes doc K) pg b h) →
  headings doc K = [].
Proof.
  intros Hno. destruct (headings doc K) as [|h hds] eqn:Hh; [done|].
  assert (h ∈ headings doc K) as Hin by (rewrite Hh; by left).
  apply elem_of_headings in Hin as (pg & b & Hpl & Hg).
  by destruct (Hno pg b h).
Qed.

Lemma text_spans_block doc pg b :
  (pg, b) ∈ placed doc → ∀ sp, sp ∈ block_spans b → sp ∈ text_spans doc.
Proof.
  intros (i & p & Hp & _ & Hb & Ht)%elem_of_placed sp Hsp.
  unfold text_spans, text_lines. rewrite flat_map_flat_map.
  apply list_elem_of_In, in_flat_map. exists p. split.
  { apply list_elem_of_In. by eapply list_elem_of_lookup_2. }
  rewrite flat_map_flat_map. apply in_flat_map. exists b. split.
  { apply list_elem_of_In. unfold kept_blocks. by apply list_elem_of_filter. }
  by apply list_elem_of_In.
Qed.

(** C8. A decoded document in which no block passes the heading tests gives
    the result with an empty [content], nothing raised; so does a document
    without any span; and [extract_everything] raises exactly when the
    document cannot be opened. *)
Theorem no_heading_empty_content :
  (∀ fitz_open pdf_path (K : option Z) (doc : document),
     fitz_open pdf_path = Some doc →
     (∀ pg b h, (pg, b) ∈ placed doc →
                ¬ generates (heading_sizes doc K) pg b h) →
     extract_everything fitz_open pdf_path K = Returns (Result [])) ∧
  (∀ fitz_open pdf_path (K : option Z) (doc : document),
     fitz_open pdf_path = Some doc →
     text_spans doc = [] →
     extract_everything fitz_open pdf_path K = Returns (Result [])) ∧
  (∀ fitz_open pdf_path (K : option Z),
     extract_everything fitz_open pdf_path K = DocumentParseError ↔
     fitz_open pdf_path = None).
Proof.
  assert (∀ doc K,
    (∀ pg b h, (pg, b) ∈ placed doc →
               ¬ generates (heading_sizes doc K) pg b h) →
    extract_document doc K = Result []) as Hmain.
  { intros doc K Hno. unfold extract_document.
    by rewrite (headings_nil doc K Hno). }
  split; [|split].
  - intros fo path K doc Hopen Hno. unfold extract_everything.
    rewrite Hopen. by rewrite Hmain.
  - intros fo path K doc Hopen Hnone. unfold extract_everything.
    rewrite Hopen. rewrite Hmain; [done|].
    intros pg b h Hpl (Hsp & _).
    destruct (block_spans b) as [|sp rest] eqn:Hb; [done|].
    assert (sp ∈ text_spans doc) as Hin.
    { apply (text_spans_block doc pg b Hpl). rewrite Hb. by left. }
    rewrite Hnone in Hin. by apply elem_of_nil in Hin.
  - intros fo path K. unfold extract_everything.
    destruct (fo path); split; done.
Qed.

Lemma no_heading_empty_content_witness :
  text_spans blank_title_doc ≠ [] ∧
  extract_everything (always_opens blank_title_doc) (lit "tender.pdf") None
    = Returns (Result []).
Proof.
  split; [vm_compute; discriminate|].
  apply (proj1 no_heading_empty_content _ _ None blank_title_doc);
    [reflexivity|].
  intros pg b h Hpl (_ & Ht & Hh & _).
  assert (placed blank_title_doc =
          [ (1, one_line_block " " 20 10);
            (1, one_line_block "plain body text follows here today" 10 50) ])
    as Hplaced by (vm_compute; reflexivity).
  rewrite Hplaced in Hpl.
  apply elem_of_cons in Hpl as [Heq|Hpl].
  { injection Heq as -> ->. apply Ht. vm_compute. reflexivity. }
  apply elem_of_cons in Hpl as [Heq|Hpl].
  { injection Heq as -> ->. vm_compute in Hh. discriminate. }
  by apply elem_of_nil in Hpl.
Defined.

(* ===================================================================== *)
(** * The numbered-heading pattern *)
(* ===================================================================== *)

Lemma nullable_matches r : matches r [] → nullable r = true.
Proof.
  intros H. remember [] as s eqn:Hs.
  induction H as [| | r1 r2 s1 s2 H1 IH1 H2 IH2 | | | |]; simpl;
    try done.
  - apply app_eq_nil in Hs as [-> ->]. by rewrite IH1, IH2.
  - by rewrite IHmatches.
  - rewrite IHmatches by done. by rewrite orb_true_r.
Qed.

Lemma deriv_matches r c s : matches r (c :: s) → matches (deriv c r) s.
Proof.
  intros H. remember (c :: s) as s0 eqn:Hs0. revert s Hs0.
  induction H as [| p c' Hp
                  | r1 r2 s1 s2 H1 IH1 H2 IH2
                  | r1 r2 s' H1 IH1 | r1 r2 s' H2 IH2
                  | | r1 s1 s2 H1 IH1 H2 IH2]; intros s Hs0; try done.
  - injection Hs0 as -> <-. simpl. rewrite Hp. constructor.
  - simpl. destruct s1 as [|c1 s1].
    + simpl in Hs0. subst s2.
      rewrite (nullable_matches _ H1). apply m_alt_r. by apply IH2.
    + injection Hs0 as -> <-.
      destruct (nullable r1).
      * apply m_alt_l. constructor; [by apply IH1|done].
      * constructor; [by apply IH1|done].
  - simpl. apply m_alt_l. by apply IH1.
  - simpl. apply m_alt_r. by apply IH2.
  - destruct s1 as [|c1 s1].
    + simpl in Hs0. by apply IH2.
    + injection Hs0 as -> <-. simpl.
      constructor; [by apply IH1|done].
Qed.

Lemma re_match_prefix r (p q : str) :
  matches r p → re_match r (p ++ q) = true.
Proof.
  revert r. induction p as [|c p IH]; intros r H.
  - destruct q; simpl; by rewrite (nullable_matches _ H).
  - simpl. rewrite IH; [by rewrite orb_true_r|]. by apply deriv_matches.
Qed.

Lemma matches_star_class (p : ascii → bool) (s : str) :
  Forall (λ c, p c = true) s → matches (Star (Class p)) s.
Proof.
  induction 1 as [|c s Hc Hs IH]; [constructor|].
  change (c :: s) with ([c] ++ s). constructor; [by constructor|done].
Qed.

Lemma matches_plus_class (p : ascii → bool) (c : ascii) (s : str) :
  p c = true → Forall (λ c, p c = true) s →
  matches (Plus (Class p)) (c :: s).
Proof.
  intros Hc Hs. change (c :: s) with ([c] ++ s).
  constructor; [by constructor|by apply matches_star_class].
Qed.

Lemma numbered_shape_match t :
  numbered_shape t → re_match num_heading_re t = true.
Proof.
  intros (d & more & ws & rest & -> & Hd & Hmore & Hws).
  replace (d :: more ++ ws :: rest)
    with (([d] ++ more ++ [ws] ++ []) ++ rest)
    by (simpl; by rewrite <- app_assoc).
  apply re_match_prefix. unfold num_heading_re.
  constructor; [by apply matches_plus_class|].
  constructor.
  - destruct Hmore as [|c more Hc Hmore].
    + apply m_alt_r. constructor.
    + apply m_alt_l. by apply matches_plus_class.
  - constructor; [by apply matches_plus_class|]. constructor.
Qed.

Lemma nullable_sound r : nullable r = true → matches r [].
Proof.
  induction r as [| | p | r1 IH1 r2 IH2 | r1 IH1 r2 IH2 | r1 IH1]; simpl;
    intros H; try done.
  - constructor.
  - apply andb_true_iff in H as [H1 H2].
    change (@nil ascii) with (@nil ascii ++ []). constructor; auto.
  - apply orb_true_iff in H as [H|H]; [apply m_alt_l|apply m_alt_r]; auto.
  - constructor.
Qed.

Lemma matches_deriv r c s : matches (deriv c r) s → matches r (c :: s).
Proof.
  revert s.
  induction r as [| | p | r1 IH1 r2 IH2 | r1 IH1 r2 IH2 | r1 IH1]; simpl;
    intros s H.
  - inversion H.
  - inversion H.
  - destruct (p c) eqn:Hp; inversion H; subst. by constructor.
  - destruct (nullable r1) eqn:Hn.
    + inversion H as [| | | ? ? ? Hl | ? ? ? Hr | |]; subst.
      * inversion Hl as [| | ? ? s1 s2 H1 H2 | | | |]; subst.
        change (c :: s1 ++ s2) with ((c :: s1) ++ s2). constructor; auto.
      * change (c :: s) with ([] ++ c :: s).
        constructor; [by apply nullable_sound|auto].
    + inversion H as [| | ? ? s1 s2 H1 H2 | | | |]; subst.
      change (c :: s1 ++ s2) with ((c :: s1) ++ s2). constructor; auto.
  - inversion H; subst; [apply m_alt_l|apply m_alt_r]; auto.
  - inversion H as [| | ? ? s1 s2 H1 H2 | | | |]; subst.
    change (c :: s1 ++ s2) with ((c :: s1) ++ s2). constructor; auto.
Qed.

Lemma re_match_sound r (s : str) :
  re_match r s = true → ∃ p q, s = p ++ q ∧ matches r p.
Proof.
  revert r. induction s as [|c s IH]; intros r; simpl.
  - rewrite orb_false_r. intros H. exists [], [].
    split; [done|by apply nullable_sound].
  - intros [H|H]%orb_true_iff.
    + exists [], (c :: s). split; [done|by apply nullable_sound].
    + destruct (IH _ H) as (p & q & -> & Hm).
      exists (c :: p), q. split; [done|by apply matches_deriv].
Qed.

Lemma star_class_inv (p : ascii → bool) (s : str) :
  matches (Star (Class p)) s → Forall (λ c, p c = true) s.
Proof.
  intros H. remember (Star (Class p)) as r eqn:Hr.
  induction H as [| | | | | |r1 s1 s2 H1 _ H2 IH2]; try discriminate.
  - constructor.
  - injection Hr as ->. inversion H1; subst. simpl. constructor; auto.
Qed.

Lemma plus_class_inv (p : ascii → bool) (s : str) :
  matches (Plus (Class p)) s →
  ∃ c s', s = c :: s' ∧ p c = true ∧ Forall (λ c, p c = true) s'.
Proof.
  intros H. inversion H as [| | ? ? s1 s2 H1 H2 | | | |]; subst.
  inversion H1; subst. apply star_class_inv in H2. simpl. eauto.
Qed.

Lemma match_numbered_shape t :
  re_match num_heading_re t = true → numbered_shape t.
Proof.
  intros (p & q & -> & H)%re_match_sound. unfold num_heading_re in H.
  inversion H as [| | ? ? p1 r1 H1 Hr1 | | | |]; subst.
  inversion Hr1 as [| | ? ? p2 r2 H2 Hr2 | | | |]; subst.
  inversion Hr2 as [| | ? ? p3 r3 H3 _ | | | |]; subst.
  apply plus_class_inv in H1 as (d & ds & -> & Hd & Hds).
  apply plus_class_inv in H3 as (w & ws & -> & Hw & _).
  assert (Forall (λ c, dot_or_digit c = true) p2) as Hp2.
  { inversion H2 as [| | | ? ? ? Hl | ? ? ? Hr | |]; subst.
    - apply plus_class_inv in Hl as (c & s' & -> & Hc & Hs'). by constructor.
    - inversion Hr. constructor. }
  exists d, (ds ++ p2), w, ((ws ++ r3) ++ q).
  split; [simpl; rewrite <- !app_assoc; simpl; by rewrite <- ?app_assoc|].
  split; [done|]. split; [|done].
  apply Forall_app. split; [|done].
  eapply Forall_impl; [exact Hds|]. intros c Hc. unfold dot_or_digit.
  simpl in Hc. rewrite Hc. by rewrite orb_true_r.
Qed.

Lemma generated_in_output doc K pg b :
  (pg, b) ∈ placed doc →
  block_title b ≠ [] →
  is_heading (heading_sizes doc K) (block_size b) (block_title b) = true →
  Heading pg (block_y0 b) (block_title b) ∈ headings doc K ∧
  ∃ (i : nat) body,
    content (extract_document doc K) !! i = Some (Sec (block_title b) body).
Proof.
  intros Hpl Ht Hh.
  assert (Heading pg (block_y0 b) (block_title b) ∈ headings doc K) as Hin.
  { apply elem_of_headings. exists pg, b. split; [done|].
    by apply generates_intro. }
  split; [done|].
  apply list_elem_of_lookup_1 in Hin as [i Hi].
  exists i. eexists. rewrite content_lookup, Hi. done.
Qed.

(** C6. A block kept by step 1 whose trimmed text has the numbered-heading
    shape becomes a heading candidate, and a section carries its text as
    title, whatever its font size and whatever heading sizes were inferred;
    the pattern of line 84 accepts exactly the texts of that shape; the text
    "1.2 Scope of Work" passes the heading test under every set of heading
    sizes and every font size. *)
Theorem numbered_heading_is_candidate :
  ∀ (doc : document) (K : option Z) (pg : Z) (b : block),
    (pg, b) ∈ placed doc →
    numbered_shape (block_title b) →
    (Heading pg (block_y0 b) (block_title b) ∈ headings doc K ∧
     ∃ (i : nat) body,
       content (extract_document doc K) !! i = Some (Sec (block_title b) body)) ∧
    (∀ hs size, is_heading hs size (block_title b) = true) ∧
    (∀ t, re_match num_heading_re t = true ↔ numbered_shape t) ∧
    (∀ hs size, is_heading hs size (lit "1.2 Scope of Work") = true).
Proof.
  intros doc K pg b Hpl Hshape.
  assert (∀ hs size, is_heading hs size (block_title b) = true) as Hh.
  { intros hs size. unfold is_heading.
    rewrite (numbered_shape_match _ Hshape).
    by rewrite orb_true_r. }
  split; [|split; [done|split]].
  - apply generated_in_output; auto.
    destruct Hshape as (d & more & ws & rest & -> & _). done.
  - intros t. split; [apply match_numbered_shape|apply numbered_shape_match].
  - intros hs size. unfold is_heading.
    replace (re_match num_heading_re (lit "1.2 Scope of Work")) with true
      by (vm_compute; reflexivity).
    by rewrite orb_true_r.
Qed.

Lemma numbered_heading_is_candidate_witness :
  block_size (one_line_block "1.2 Scope of Work" 10 50) = 10 ∧
  heading_sizes scope_doc None = {[20]} ∧
  Heading 1 50 (lit "1.2 Scope of Work") ∈ headings scope_doc None.
Proof.
  split; [reflexivity|]. split; [vm_compute; reflexivity|].
  apply (numbered_heading_is_candidate scope_doc None 1
           (one_line_block "1.2 Scope of Work" 10 50)).
  - apply elem_of_placed. exists 0%nat.
    eexists. split; [reflexivity|]. split; [reflexivity|].
    split; [|reflexivity]. simpl. right. left.
  - exists "1"%char, [period; "2"%char], " "%char, (lit "Scope of Work").
    split; [reflexivity|]. split; [reflexivity|].
    split; [|reflexivity]. repeat constructor.
Defined.

(* ===================================================================== *)
(** * Title case *)
(* ===================================================================== *)

Lemma upper_not_lower c : isupper_char c = true → islower_char c = false.
Proof.
  unfold isupper_char, islower_char, in_range.
  generalize (code c). intros n.
  rewrite !orb_true_iff, !andb_true_iff, !N.leb_le.
  intros H.
  repeat (apply orb_false_iff; split);
    try (apply andb_false_iff; rewrite !N.leb_gt; lia);
    apply N.eqb_neq; lia.
Qed.

Lemma title_from_cons prev cased ch s :
  title_from prev cased (ch :: s) ↔
  ((isupper_char ch = true → prev = false) ∧
   (islower_char ch = true → prev = true)) ∧
  title_from (cased_char ch) (cased || cased_char ch) s.
Proof.
  unfold title_from. split.
  - intros (Hc & Hfirst & Hadj). split; [by apply (Hfirst ch s)|].
    split; [|split].
    + destruct Hc as [->|(c & Hin & Hcc)]; [by left|].
      apply elem_of_cons in Hin as [->|Hin].
      * left. rewrite Hcc. by rewrite orb_true_r.
      * right. eauto.
    + intros c post ->. apply (Hadj [] ch c post). done.
    + intros pre p c post ->. apply (Hadj (ch :: pre) p c post). done.
  - intros (Hch & Hc & Hfirst & Hadj). split; [|split].
    + destruct Hc as [Hc|(c & Hin & Hcc)].
      * apply orb_true_iff in Hc as [Hc|Hc]; [by left|].
        right. exists ch. split; [by left|done].
      * right. exists c. split; [by right|done].
    + intros c post [= <- <-]. done.
    + intros [|a pre] p c post Heq.
      * injection Heq as <- ->. by apply (Hfirst c post).
      * injection Heq as <- ->. by apply (Hadj pre p c post).
Qed.

Lemma istitle_aux_spec s :
  ∀ prev cased, istitle_aux prev cased s = true ↔ title_from prev cased s.
Proof.
  induction s as [|ch s IH]; intros prev cased.
  - simpl. unfold title_from. split.
    + intros ->. split; [by left|]. split.
      * intros c post Heq. done.
      * intros pre p c post Heq. by destruct pre.
    + intros ([Hc|(c & Hin & _)] & _); [done|]. by apply elem_of_nil in Hin.
  - rewrite title_from_cons. simpl. unfold cased_char.
    destruct (isupper_char ch) eqn:Hu.
    + rewrite (upper_not_lower _ Hu). simpl. rewrite orb_true_r.
      destruct prev.
      * split; [done|]. intros [[H _] _]. by specialize (H eq_refl).
      * rewrite IH. split; [intros H; split; [split; intros; congruence|exact H]|by intros [_ H]].
    + destruct (islower_char ch) eqn:Hl; simpl.
      * rewrite orb_true_r. destruct prev.
        -- rewrite IH. split; [intros H; split; [split; intros; congruence|exact H]|by intros [_ H]].
        -- split; [done|]. intros [[_ H] _]. by specialize (H eq_refl).
      * rewrite orb_false_r. rewrite IH.
        split; [intros H; split; [split; intros; congruence|exact H]|by intros [_ H]].
Qed.

Lemma istitle_spec t : istitle t = true ↔ title_cased t.
Proof.
  unfold istitle. rewrite istitle_aux_spec. unfold title_from, title_cased.
  split.
  - intros ([Hc|Hc] & Hfirst & Hadj); [done|].
    split; [done|]. split; [|done].
    intros c post Heq. destruct (islower_char c) eqn:Hl; [|done].
    destruct (Hfirst c post Heq) as [_ H]. by specialize (H Hl).
  - intros (Hc & Hfirst & Hadj). split; [by right|]. split; [|done].
    intros c post Heq. split; [done|].
    intros Hl. by rewrite (Hfirst c post Heq) in Hl.
Qed.

(** C5, as stated, fails: both words of "McDonald Offer" start with a
    capital, yet the capital D inside the first word breaks [istitle], and
    at a font size outside the heading sizes the block is no candidate. *)
Lemma capitalized_words_not_candidate :
  (1, mcdonald_block) ∈ placed mcdonald_doc ∧
  block_title mcdonald_block ≠ [] ∧
  (length (split (block_title mcdonald_block)) ≤ 5)%nat ∧
  words_capitalized (block_title mcdonald_block) ∧
  ¬ (∃ h, h ∈ headings mcdonald_doc None ∧
          h_text h = block_title mcdonald_block).
Proof.
  split.
  { apply elem_of_placed. exists 0%nat.
    eexists. split; [reflexivity|]. split; [reflexivity|].
    split; [|reflexivity]. simpl. right. left. }
  split; [vm_compute; discriminate|].
  split; [vm_compute; lia|].
  split.
  { unfold words_capitalized.
    replace (split (block_title mcdonald_block))
      with [lit "McDonald"; lit "Offer"] by (vm_compute; reflexivity).
    repeat constructor; eexists _, _; split; reflexivity. }
  intros (h & Hin & Ht).
  replace (headings mcdonald_doc None)
    with [Heading 1 10 (lit "TENDER")] in Hin by (vm_compute; reflexivity).
  apply list_elem_of_singleton in Hin. subst h.
  vm_compute in Ht. discriminate.
Qed.

(** C5, amended. A block kept by step 1 whose trimmed text has at most five
    white-space-delimited words and is in title case as [str.istitle] reads
    it (some letter is cased, no upper-case letter comes right after a
    letter, every lower-case letter comes right after a letter) becomes a
    heading candidate and the title of a section, whatever its font size
    and whatever heading sizes were inferred. *)
Theorem title_case_is_candidate :
  ∀ (doc : document) (K : option Z) (pg : Z) (b : block),
    (pg, b) ∈ placed doc →
    (length (split (block_title b)) ≤ 5)%nat →
    title_cased (block_title b) →
    (Heading pg (block_y0 b) (block_title b) ∈ headings doc K ∧
     ∃ (i : nat) body,
       content (extract_document doc K) !! i = Some (Sec (block_title b) body)) ∧
    (∀ hs size, is_heading hs size (block_title b) = true).
Proof.
  intros doc K pg b Hpl Hwords Htitle.
  assert (∀ hs size, is_heading hs size (block_title b) = true) as Hh.
  { intros hs size. unfold is_heading.
    apply istitle_spec in Htitle. rewrite Htitle.
    apply Nat.leb_le in Hwords. rewrite Hwords.
    by rewrite orb_true_r. }
  split; [|done].
  apply generated_in_output; auto.
  destruct Htitle as ((c & Hin & _) & _).
  intros Hnil. rewrite Hnil in Hin. by apply elem_of_nil in Hin.
Qed.

Lemma title_case_is_candidate_witness :
  heading_sizes title_doc None = {[20]} ∧
  block_size (one_line_block "Scope Of Work" 10 50) = 10 ∧
  Heading 1 50 (lit "Scope Of Work") ∈ headings title_doc None.
Proof.
  split; [vm_compute; reflexivity|]. split; [reflexivity|].
  apply (title_case_is_candidate title_doc None 1
           (one_line_block "Scope Of Work" 10 50)).
  - apply elem_of_placed. exists 0%nat.
    eexists. split; [reflexivity|]. split; [reflexivity|].
    split; [|reflexivity]. simpl. right. left.
  - vm_compute. lia.
  - apply istitle_spec. vm_compute. reflexivity.
Defined.

(* ===================================================================== *)
(** * Membership of blocks in sections *)
(* ===================================================================== *)

Ltac lex := unfold lex_le, lex_lt, heading_key, flat_key in *; simpl in *; lia.

Lemma lex_le_antisym (a b : Z * Z) : lex_le a b → lex_le b a → a = b.
Proof.
  destruct a as [p y], b as [q z]. intros H1 H2.
  assert (p = q ∧ y = z) as [-> ->] by lex. done.
Qed.

Lemma in_section_spec (hds : list heading) (i : nat) (h : heading) x :
  in_section (h_page h) (h_y0 h) (section_end hds i) x = true ↔
  lex_le (heading_key h) (flat_key x) ∧
  ∀ n, hds !! (i + 1)%nat = Some n → lex_lt (flat_key x) (heading_key n).
Proof.
  destruct x as [[pg b] y0]. unfold in_section, section_end.
  destruct (hds !! (i + 1)%nat) as [n|]; simpl.
  - rewrite andb_true_iff, !orb_true_iff, !andb_true_iff.
    rewrite !Z.ltb_lt, !Z.eqb_eq, Z.leb_le.
    split.
    + intros [H1 H2]. split; [lex|]. intros n' [= <-]. lex.
    + intros [H1 H2]. specialize (H2 n eq_refl). split; lex.
  - rewrite andb_true_r, !orb_true_iff, !andb_true_iff.
    rewrite !Z.ltb_lt, !Z.eqb_eq, Z.leb_le.
    split; [intros H; split; [lex|done]|intros [H _]; lex].
Qed.

Lemma elem_of_section_members hds flat i h x :
  x ∈ section_members hds flat i h ↔
  x ∈ flat ∧ lex_le (heading_key h) (flat_key x) ∧
  ∀ n, hds !! (i + 1)%nat = Some n → lex_lt (flat_key x) (heading_key n).
Proof.
  unfold section_members. rewrite list_elem_of_filter, in_section_spec.
  tauto.
Qed.

Lemma member_within doc K i x :
  member doc K i x ↔ x ∈ flat_blocks doc ∧ within (headings doc K) i (flat_key x).
Proof.
  unfold member, within. split.
  - intros (h & Hi & Hin). apply elem_of_section_members in Hin.
    destruct Hin as (? & ? & ?). eauto 10.
  - intros (Hin & h & Hi & Hle & Hlt). exists h. split; [done|].
    by apply elem_of_section_members.
Qed.

Section Within.
Context (hds : list heading).
Hypothesis hds_sorted :
  StronglySorted (λ a b, lex_le (heading_key a) (heading_key b)) hds.

Lemma sorted_keys (i j : nat) hi hj :
  (i ≤ j)%nat → hds !! i = Some hi → hds !! j = Some hj →
  lex_le (heading_key hi) (heading_key hj).
Proof.
  intros Hij Hi Hj. destruct (decide (i = j)) as [->|Hne].
  - rewrite Hi in Hj. injection Hj as ->. lex.
  - apply (StronglySorted_lookup _ hds i j hi hj hds_sorted); [lia|done..].
Qed.

Lemma within_lt (i j : nat) k : within hds i k → within hds j k → ¬ (i < j)%nat.
Proof.
  intros (hi & Hi & Hle & Hnext) (hj & Hj & Hlej & _) Hij.
  destruct (lookup_lt_is_Some_2 hds (i + 1)) as [n Hn].
  { apply lookup_lt_Some in Hj. lia. }
  specialize (Hnext n Hn).
  assert (lex_le (heading_key n) (heading_key hj)) as Hnj.
  { apply (sorted_keys (i + 1) j); [lia|done..]. }
  lex.
Qed.

Lemma within_unique (i j : nat) k : within hds i k → within hds j k → i = j.
Proof.
  intros Hi Hj.
  pose proof (within_lt i j k Hi Hj). pose proof (within_lt j i k Hj Hi). lia.
Qed.

Lemma within_none h0 k (i : nat) :
  hds !! 0%nat = Some h0 → lex_lt k (heading_key h0) → ¬ within hds i k.
Proof.
  intros H0 Hlt (h & Hi & Hle & _).
  assert (lex_le (heading_key h0) (heading_key h)) as H0h.
  { apply (sorted_keys 0 i); [lia|done..]. }
  lex.
Qed.
End Within.

Lemma within_exists (hds : list heading) h0 k :
  hds !! 0%nat = Some h0 → lex_le (heading_key h0) k → ∃ i, within hds i k.
Proof.
  revert h0. induction hds as [|h hds IH]; intros h0 H0 Hle; [done|].
  simpl in H0. injection H0 as ->.
  destruct hds as [|h' hds].
  - exists 0%nat, h0. split; [done|]. split; [done|]. intros n Hn. done.
  - assert (lex_le (heading_key h') k ∨ lex_lt k (heading_key h')) as [Hle'|Hlt]
      by lex.
    + destruct (IH h' eq_refl Hle') as (i & h & Hi & Hhi & Hnext).
      exists (S i), h. split; [done|]. split; [done|].
      intros n Hn. apply Hnext. done.
    + exists 0%nat, h0. split; [done|]. split; [done|].
      intros n [= <-]. done.
Qed.

(** C4, as stated, fails: the output has a section, yet the block above the
    first heading is under no heading. *)
Lemma block_before_first_heading :
  content (extract_document preface_doc None) ≠ [] ∧
  (1, preface_block, 10) ∈ flat_blocks preface_doc ∧
  ∀ i, ¬ member preface_doc None i (1, preface_block, 10).
Proof.
  split; [vm_compute; discriminate|].
  split; [vm_compute; left|].
  intros i (h & Hi & Hin). unfold section_members in Hin.
  apply list_elem_of_filter in Hin as [Hin _].
  replace (headings preface_doc None)
    with [Heading 1 50 (lit "1. Scope")] in Hi, Hin
    by (vm_compute; reflexivity).
  destruct i as [|i]; [|by destruct i].
  injection Hi as <-. vm_compute in Hin. discriminate.
Qed.

(** C4, amended. A block with at least one span is under at most one
    heading: never in two sections, never split.  It is under exactly one
    heading when it lies at or after the first heading in (page, vertical
    position) order, and under none when it lies before the first
    heading. *)
Theorem block_in_at_most_one_section :
  ∀ (doc : document) (K : option Z) (x : Z * block * Z),
    x ∈ flat_blocks doc →
    (∀ i j, member doc K i x → member doc K j x → i = j) ∧
    (∀ h0, headings doc K !! 0%nat = Some h0 →
       (lex_le (heading_key h0) (flat_key x) →
        ∃ i, member doc K i x ∧ ∀ j, member doc K j x → j = i) ∧
       (lex_lt (flat_key x) (heading_key h0) → ∀ i, ¬ member doc K i x)).
Proof.
  intros doc K x Hx.
  assert (∀ i j, member doc K i x → member doc K j x → i = j) as Huniq.
  { intros i j [_ Hi]%member_within [_ Hj]%member_within.
    eapply within_unique; eauto using headings_sorted. }
  split; [done|].
  intros h0 H0. split.
  - intros Hle. destruct (within_exists _ _ _ H0 Hle) as [i Hi].
    assert (member doc K i x) as Hm by (by apply member_within).
    exists i. split; [done|]. intros j Hj. by apply (Huniq j i).
  - intros Hlt i [_ Hi]%member_within.
    by eapply within_none; eauto using headings_sorted.
Qed.

Lemma block_in_at_most_one_section_witness :
  ∃ i, member scenario None i (1, one_line_block "Intro body." 10 80, 80) ∧
       ∀ j, member scenario None j (1, one_line_block "Intro body." 10 80, 80)
            → j = i.
Proof.
  assert ((1, one_line_block "Intro body." 10 80, 80) ∈ flat_blocks scenario)
    as Hx by (vm_compute; right; left).
  destruct (block_in_at_most_one_section scenario None _ Hx) as [_ H].
  apply (H (Heading 1 50 (lit "1. Introduction"))).
  - vm_compute. reflexivity.
  - right. simpl. lia.
Defined.

(* ===================================================================== *)
(** * The text of a section *)
(* ===================================================================== *)

Lemma lstrip_app (a b : str) :
  lstrip (a ++ b) = if forallb isspace_char a then lstrip b else lstrip a ++ b.
Proof.
  induction a as [|c a IH]; simpl; [done|].
  destruct (isspace_char c); simpl; done.
Qed.

Lemma lstrip_all_space (a : str) :
  forallb isspace_char a = true → lstrip a = [].
Proof.
  induction a as [|c a IH]; simpl; [done|].
  destruct (isspace_char c); simpl; [done|discriminate].
Qed.

Lemma lstrip_suffix (a : str) : ∃ k, a = k ++ lstrip a.
Proof.
  induction a as [|c a [k IH]]; simpl; [by exists []|].
  destruct (isspace_char c).
  - exists (c :: k). simpl. by rewrite <- IH.
  - by exists [].
Qed.

Lemma rstrip_prefix (a : str) : rstrip a `prefix_of` a.
Proof.
  unfold rstrip. destruct (lstrip_suffix (rev a)) as [k Hk].
  exists (rev k). rewrite <- rev_app_distr, <- Hk. by rewrite rev_involutive.
Qed.

Lemma rstrip_app_prefix (a b : str) : rstrip a `prefix_of` rstrip (a ++ b).
Proof.
  unfold rstrip at 2. rewrite rev_app_distr, lstrip_app.
  destruct (forallb isspace_char (rev b)).
  - done.
  - rewrite rev_app_distr, rev_involutive.
    destruct (rstrip_prefix a) as [k Hk]. rewrite Hk at 2.
    rewrite <- app_assoc. by eexists.
Qed.

Lemma strip_app_prefix (a b : str) : strip a `prefix_of` strip (a ++ b).
Proof.
  unfold strip. rewrite lstrip_app.
  destruct (forallb isspace_char a) eqn:Ha.
  - rewrite (lstrip_all_space a Ha). apply prefix_nil.
  - apply rstrip_app_prefix.
Qed.

Lemma join_cons_app (sep t : str) (ts : list str) :
  ∃ r, join sep (t :: ts) = t ++ r.
Proof.
  simpl. destruct ts; simpl.
  - exists []. by rewrite app_nil_r.
  - by eexists.
Qed.

Lemma filter_head_sorted {A} (key : A → Z * Z) (P : A → Prop)
    `{∀ x, Decision (P x)} (l : list A) (x : A) :
  StronglySorted (λ a b, lex_le (key a) (key b)) l →
  x ∈ l → P x →
  (∀ y, P y → lex_le (key x) (key y)) →
  (∀ y, y ∈ l → key y = key x → y = x) →
  ∃ rest, filter P l = x :: rest.
Proof.
  intros Hs. induction Hs as [|a l Hs IH Hall]; intros Hx HP Hlow Huniq.
  - by apply elem_of_nil in Hx.
  - destruct (decide (P a)) as [Ha|Ha].
    + rewrite filter_cons_True by done.
      assert (a = x) as ->; [|by eexists].
      apply elem_of_cons in Hx as [->|Hx]; [done|].
      apply Huniq; [by left|].
      rewrite Forall_forall in Hall.
      apply lex_le_antisym; [by apply Hall|by apply Hlow].
    + rewrite filter_cons_False by done.
      apply elem_of_cons in Hx as [->|Hx]; [done|].
      apply IH; auto. intros y Hy. apply Huniq. by right.
Qed.

Lemma single_line_title (b : block) (ln : line) :
  lines b = [ln] → block_title b = strip (block_text b).
Proof.
  intros Hl. unfold block_title, block_text, block_spans. rewrite Hl. simpl.
  by rewrite app_nil_r.
Qed.

(** C3, as stated, fails.  In [tie_doc] the block that yields the first
    heading is not among the blocks of the first section, whose body is
    empty.  In [shared_doc] a plain block at the height of the heading comes
    first in the body of the heading's section. *)
Lemma heading_block_outside_own_section :
  headings tie_doc None !! 0%nat = Some (Heading 1 50 (lit "1. Scope")) ∧
  generates (heading_sizes tie_doc None) 1 (one_line_block "1. Scope" 10 50)
            (Heading 1 50 (lit "1. Scope")) ∧
  ¬ member tie_doc None 0 (1, one_line_block "1. Scope" 10 50, 50) ∧
  content (extract_document shared_doc None) =
    [ Sec (lit "1. Scope")
          (lit "plain body text follows here today" ++ newline ++
           lit "1. Scope") ].
Proof.
  split; [vm_compute; reflexivity|].
  split.
  { apply generates_intro; [vm_compute; discriminate|vm_compute; reflexivity]. }
  split; [|vm_compute; reflexivity].
  intros (h & Hi & Hin). unfold section_members in Hin.
  apply list_elem_of_filter in Hin as [Hin _].
  replace (headings tie_doc None)
    with [Heading 1 50 (lit "1. Scope"); Heading 1 50 (lit "2. Price")]
    in Hi, Hin by (vm_compute; reflexivity).
  injection Hi as <-. vm_compute in Hin. discriminate.
Qed.

(** C3, amended. A block is among the blocks of section i exactly when its
    (page, smallest span y0) is at or after the start of heading i and
    strictly before the start of heading i+1, lexicographically, with no
    upper bound for the last heading.  When the next heading starts
    strictly later than heading i (or there is none), the block that
    yielded heading i is among the blocks of section i and its trimmed text
    is the title.  When moreover no other block with spans sits at the same
    page and height, the body of section i begins with the text of that
    block, lines joined by line breaks and trimmed; for a block of a single
    line this is the title. *)
Theorem section_membership :
  ∀ (doc : document) (K : option Z) (i : nat) (h : heading),
    headings doc K !! i = Some h →
    (∀ x, x ∈ section_members (headings doc K) (flat_blocks doc) i h ↔
          x ∈ flat_blocks doc ∧
          lex_le (heading_key h) (flat_key x) ∧
          ∀ n, headings doc K !! (i + 1)%nat = Some n →
               lex_lt (flat_key x) (heading_key n)) ∧
    content (extract_document doc K) !! i =
      Some (Sec (h_text h)
                (section_body (headings doc K) (flat_blocks doc) i h)) ∧
    (∀ pg b,
       (pg, b) ∈ placed doc →
       generates (heading_sizes doc K) pg b h →
       (∀ n, headings doc K !! (i + 1)%nat = Some n →
             lex_lt (heading_key h) (heading_key n)) →
       (pg, b, block_y0 b)
         ∈ section_members (headings doc K) (flat_blocks doc) i h ∧
       h_text h = block_title b ∧
       ((∀ pg' b', (pg', b') ∈ placed doc → block_spans b' ≠ [] →
                   pg' = pg → block_y0 b' = block_y0 b → b' = b) →
        strip (block_text b)
          `prefix_of` section_body (headings doc K) (flat_blocks doc) i h ∧
        (∀ ln, lines b = [ln] →
               h_text h
                 `prefix_of`
                 section_body (headings doc K) (flat_blocks doc) i h))).
Proof.
  intros doc K i h Hi.
  split; [intros x; apply elem_of_section_members|].
  split; [by rewrite content_lookup, Hi|].
  intros pg b Hpl Hg Hnext.
  pose proof Hg as (Hsp & Ht & Hh & Heq).
  assert ((pg, b, block_y0 b) ∈ flat_blocks doc) as Hflat.
  { apply elem_of_flat_blocks. eauto. }
  assert ((pg, b, block_y0 b)
            ∈ section_members (headings doc K) (flat_blocks doc) i h) as Hmem.
  { apply elem_of_section_members. split; [done|].
    subst h. split; [lex|]. intros n Hn. apply (Hnext n Hn). }
  split; [done|]. split; [by subst h|].
  intros Huniq.
  assert (strip (block_text b)
            `prefix_of` section_body (headings doc K) (flat_blocks doc) i h)
    as Hpre.
  { unfold section_body, section_members.
    destruct (filter_head_sorted flat_key
                (λ x, in_section (h_page h) (h_y0 h)
                        (section_end (headings doc K) i) x = true)
                (flat_blocks doc) (pg, b, block_y0 b)) as [rest ->].
    - apply flat_blocks_sorted.
    - done.
    - unfold section_members in Hmem.
      by apply list_elem_of_filter in Hmem as [? _].
    - intros y Hy. apply in_section_spec in Hy as [Hy _]. subst h. lex.
    - intros y Hy Hkey.
      apply elem_of_flat_blocks in Hy as (pg' & b' & Hpl' & Hsp' & ->).
      unfold flat_key in Hkey. simpl in Hkey. injection Hkey as -> Hy0.
      by rewrite (Huniq pg b' Hpl' Hsp' eq_refl Hy0).
    - simpl map.
      destruct (join_cons_app newline (block_text b)
                  (map (λ x, block_text x.1.2) rest)) as [r ->].
      apply strip_app_prefix. }
  split; [done|].
  intros ln Hln. subst h. simpl. by rewrite (single_line_title b ln Hln).
Qed.

Lemma section_membership_witness :
  (1, one_line_block "1. Introduction" 16 50, 50)
    ∈ section_members (headings scenario None) (flat_blocks scenario) 0
        (Heading 1 50 (lit "1. Introduction")) ∧
  lit "1. Introduction"
    `prefix_of` section_body (headings scenario None) (flat_blocks scenario) 0
                  (Heading 1 50 (lit "1. Introduction")).
Proof.
  assert (headings scenario None !! 0%nat
          = Some (Heading 1 50 (lit "1. Introduction"))) as Hi
    by (vm_compute; reflexivity).
  destruct (section_membership scenario None 0 _ Hi) as (_ & _ & H).
  assert (placed scenario =
          [ (1, one_line_block "1. Introduction" 16 50);
            (1, one_line_block "Intro body." 10 80);
            (2, one_line_block "2. Pricing" 16 40);
            (2, one_line_block "Pricing body." 10 70) ]) as Hplaced
    by (vm_compute; reflexivity).
  destruct (H 1 (one_line_block "1. Introduction" 16 50)) as (Hm & _ & Hp).
  - rewrite Hplaced. left.
  - apply generates_intro; [vm_compute; discriminate|vm_compute; reflexivity].
  - intros n Hn. vm_compute in Hn. injection Hn as <-. left. simpl. lia.
  - split; [exact Hm|].
    destruct Hp as [_ Hp].
    + intros pg' b' Hpl _ Hpg Hy. rewrite Hplaced in Hpl.
      repeat (apply elem_of_cons in Hpl as [Heq|Hpl];
              [injection Heq as -> ->; first [reflexivity | discriminate]|]).
      by apply elem_of_nil in Hpl.
    + apply (Hp (Line [Span (lit "1. Introduction") 16 (0, 50, 0, 0)])).
      reflexivity.
Defined.


(* ===================================================================== *)
(** * Bounds on the heading sizes *)
(* ===================================================================== *)

Lemma infer_heading_sizes_subset (fs : list Z) :
  infer_heading_sizes fs ⊆ list_to_set fs.
Proof.
  destruct (infer_heading_sizes_spec fs) as [Hfew Hmany].
  destruct (Nat.lt_ge_cases (length (sorted_set_desc fs)) 2) as [Hlt|Hge].
  - by rewrite (Hfew Hlt).
  - destruct (Hmany Hge) as (idx & _ & ->).
    intros x Hx. apply elem_of_list_to_set in Hx.
    apply elem_of_list_to_set, sorted_set_desc_elem.
    apply elem_of_take in Hx as (i & Hi & _).
    by eapply list_elem_of_lookup_2.
Qed.

Lemma infer_heading_sizes_max (fs : list Z) (m : Z) :
  m ∈ fs → (∀ x, x ∈ fs → x ≤ m) → m ∈ infer_heading_sizes fs.
Proof.
  intros Hm Hmax.
  destruct (infer_heading_sizes_spec fs) as [Hfew Hmany].
  destruct (Nat.lt_ge_cases (length (sorted_set_desc fs)) 2) as [Hlt|Hge].
  - rewrite (Hfew Hlt). by apply elem_of_list_to_set.
  - destruct (Hmany Hge) as (idx & _ & ->).
    apply elem_of_list_to_set.
    pose proof (sorted_set_desc_sorted fs) as Hs.
    pose proof (proj2 (sorted_set_desc_elem m fs) Hm) as Hin.
    destruct (sorted_set_desc fs) as [|a rest] eqn:Hu; [by apply elem_of_nil in Hin|].
    rewrite Nat.add_1_r. simpl.
    apply StronglySorted_inv in Hs as [_ Hall]. rewrite Forall_forall in Hall.
    apply elem_of_cons in Hin as [->|Hin]; [by left|].
    assert (a ≤ m).
    { apply Hmax, sorted_set_desc_elem. rewrite Hu. by left. }
    specialize (Hall m Hin). lia.
Qed.

Lemma infer_heading_sizes_min (fs : list Z) (m m' : Z) :
  m ∈ fs → m' ∈ fs → m < m' → (∀ x, x ∈ fs → m ≤ x) →
  m ∉ infer_heading_sizes fs.
Proof.
  intros Hm Hm' Hlt Hmin.
  destruct (infer_heading_sizes_spec fs) as [_ Hmany].
  pose proof (sorted_set_desc_sorted fs) as Hs.
  apply sorted_set_desc_elem in Hm, Hm'.
  assert (2 ≤ length (sorted_set_desc fs))%nat as Hge.
  { destruct (sorted_set_desc fs) as [|a [|b r]]; simpl; try lia.
    - by apply elem_of_nil in Hm.
    - apply list_elem_of_singleton in Hm, Hm'. lia. }
  destruct (Hmany Hge) as (idx & (Hidx & _) & ->).
  rewrite elem_of_list_to_set. intros Hin.
  rewrite <- (take_drop (idx + 1) (sorted_set_desc fs)) in Hs.
  destruct (drop (idx + 1) (sorted_set_desc fs)) as [|y d] eqn:Hd.
  { apply (f_equal length) in Hd. rewrite length_drop in Hd. simpl in Hd. lia. }
  assert (y < m) as Hy.
  { apply (StronglySorted_app_1_elem_of _ _ _ m y Hs Hin). by left. }
  assert (m ≤ y).
  { apply Hmin, sorted_set_desc_elem.
    rewrite <- (take_drop (idx + 1) (sorted_set_desc fs)), Hd.
    apply elem_of_app. right. by left. }
  lia.
Qed.

(** X1. The heading-sized set holds only sizes that occur in the input,
    always holds the largest size, and, when two different sizes occur,
    never holds the smallest one. *)
Theorem infer_heading_sizes_bounds :
  ∀ fs : list Z,
    infer_heading_sizes fs ⊆ list_to_set fs ∧
    (∀ m, m ∈ fs → (∀ x, x ∈ fs → x ≤ m) → m ∈ infer_heading_sizes fs) ∧
    (∀ m m', m ∈ fs → m' ∈ fs → m < m' → (∀ x, x ∈ fs → m ≤ x) →
             m ∉ infer_heading_sizes fs).
Proof.
  intros fs. split; [apply infer_heading_sizes_subset|].
  split; [apply infer_heading_sizes_max|apply infer_heading_sizes_min].
Qed.

Lemma heading_sizes_floor_subset doc K :
  heading_sizes doc None ⊆ heading_sizes doc K.
Proof.
  unfold heading_sizes. destruct K as [k|]; [|done].
  destruct (k =? 0); [done|]. apply union_subseteq_l.
Qed.

Lemma slice_to_elem {A} (l : list A) (k : Z) (x : A) :
  x ∈ slice_to l k → x ∈ l.
Proof.
  unfold slice_to. destruct (0 <=? k);
    intros (i & Hi & _)%elem_of_take; by eapply list_elem_of_lookup_2.
Qed.

Lemma heading_sizes_subset doc K :
  heading_sizes doc K ⊆ list_to_set (font_sizes doc).
Proof.
  unfold heading_sizes. destruct K as [k|];
    [|apply infer_heading_sizes_subset].
  destruct (k =? 0); [apply infer_heading_sizes_subset|].
  apply union_least; [apply infer_heading_sizes_subset|].
  intros x Hx. apply elem_of_list_to_set in Hx.
  apply elem_of_list_to_set, sorted_set_desc_elem.
  by eapply slice_to_elem.
Qed.

Lemma is_heading_mono (hs hs' : gset Z) size text :
  hs ⊆ hs' → is_heading hs size text = true → is_heading hs' size text = true.
Proof.
  intros Hsub. unfold is_heading.
  rewrite !orb_true_iff, !bool_decide_eq_true.
  intros [[[H|H]|H]|H]; auto.
Qed.

Lemma heading_block_sublist (hs hs' : gset Z) pg b :
  hs ⊆ hs' → heading_block hs pg [] b `sublist_of` heading_block hs' pg [] b.
Proof.
  intros Hsub. unfold heading_block.
  destruct (block_spans b) as [|s rest]; [done|].
  destruct (is_empty _); [done|].
  destruct (is_heading hs _ _) eqn:Hh.
  - by rewrite (is_heading_mono hs hs' _ _ Hsub Hh).
  - simpl. apply sublist_nil_l.
Qed.

Lemma flat_map_sublist {A B} (f g : A → list B) (l : list A) :
  (∀ x, f x `sublist_of` g x) → flat_map f l `sublist_of` flat_map g l.
Proof.
  intros Hfg. induction l as [|x l IH]; simpl; [done|].
  by apply sublist_app.
Qed.

(** X2. Supplying [heading_font_count] never loses a heading: the heading
    sizes without it are among those with it, the candidates collected
    without it are, in order, among those collected with it, and the output
    has at least as many sections; the heading sizes are always font sizes
    of the document, and a count of 0 is the same as no count. *)
Theorem floor_keeps_headings :
  ∀ (doc : document) (K : option Z),
    heading_sizes doc None ⊆ heading_sizes doc K ∧
    heading_sizes doc K ⊆ list_to_set (font_sizes doc) ∧
    found_headings doc None `sublist_of` found_headings doc K ∧
    (∀ h, h ∈ headings doc None → h ∈ headings doc K) ∧
    (length (content (extract_document doc None))
       ≤ length (content (extract_document doc K)))%nat ∧
    extract_document doc (Some 0) = extract_document doc None.
Proof.
  intros doc K.
  assert (found_headings doc None `sublist_of` found_headings doc K) as Hsub.
  { unfold found_headings. apply flat_map_sublist. intros [pg b].
    apply heading_block_sublist, heading_sizes_floor_subset. }
  split; [apply heading_sizes_floor_subset|].
  split; [apply heading_sizes_subset|].
  split; [done|]. split; [|split; [|done]].
  - intros h. rewrite !headings_eq, !elem_of_sorted_by.
    intros Hh. by eapply elem_of_sublist.
  - unfold extract_document, group_sections. simpl.
    rewrite !length_imap, !headings_eq, !length_sorted_by.
    by apply sublist_length.
Qed.

(* ===================================================================== *)
(** * A negative floor *)
(* ===================================================================== *)

Lemma below_at_least_take (fs : list Z) (m : nat) (x : Z) :
  below_at_least fs m x ↔
  x ∈ take (length (sorted_set_desc fs) - m) (sorted_set_desc fs).
Proof.
  pose proof (sorted_set_desc_sorted fs) as Hs.
  pose proof (sorted_set_desc_NoDup fs) as Hnd.
  split.
  - intros (Hx & l & Hl & Hlen & Hall). apply sorted_set_desc_elem in Hx.
    apply list_elem_of_split in Hx as (u1 & u2 & Hu).
    rewrite Hu in Hs, Hnd |- *.
    assert (l ⊆+ u2) as Hsub.
    { apply NoDup_submseteq; [done|]. intros y Hy.
      destruct (Hall y Hy) as [Hyfs Hyx].
      apply sorted_set_desc_elem in Hyfs. rewrite Hu in Hyfs.
      apply elem_of_app in Hyfs as [Hy1|Hy2].
      - assert (x < y); [|lia].
        apply (StronglySorted_app_1_elem_of _ _ _ y x Hs Hy1). by left.
      - apply elem_of_cons in Hy2 as [->|Hy2]; [lia|done]. }
    apply submseteq_length in Hsub.
    apply elem_of_take. exists (length u1). split.
    + by rewrite list_lookup_middle.
    + rewrite length_app. simpl. lia.
  - intros (i & Hi & Him)%elem_of_take.
    split.
    { apply sorted_set_desc_elem. by eapply list_elem_of_lookup_2. }
    pose proof (take_drop_middle _ _ _ Hi) as Hu.
    pose proof (lookup_lt_Some _ _ _ Hi) as Hlt.
    exists (take m (drop (S i) (sorted_set_desc fs))).
    rewrite <- Hu in Hs, Hnd.
    apply StronglySorted_app_1_r in Hs. apply StronglySorted_inv in Hs as [_ Hs].
    rewrite Forall_forall in Hs.
    apply NoDup_app in Hnd as (_ & _ & Hnd). apply NoDup_cons in Hnd as [_ Hnd].
    split; [|split].
    + eapply sublist_NoDup; [exact Hnd|apply sublist_take].
    + rewrite length_take, length_drop. lia.
    + intros y Hy.
      assert (y ∈ drop (S i) (sorted_set_desc fs)) as Hyd.
      { apply elem_of_take in Hy as (j & Hj & _).
        by eapply list_elem_of_lookup_2. }
      split; [|by apply Hs].
      apply sorted_set_desc_elem. rewrite <- Hu.
      apply elem_of_app. right. by right.
Qed.

(** X3. A negative [heading_font_count] -m adds to the inferred heading
    sizes every font size that has at least m distinct font sizes below it:
    all distinct sizes but the m smallest. *)
Theorem negative_floor_drops_smallest :
  ∀ (doc : document) (K x : Z),
    K < 0 →
    (x ∈ heading_sizes doc (Some K) ↔
     x ∈ infer_heading_sizes (font_sizes doc) ∨
     below_at_least (font_sizes doc) (Z.to_nat (- K)) x).
Proof.
  intros doc K x HK. unfold heading_sizes, slice_to.
  destruct (Z.eqb_spec K 0) as [->|_]; [lia|].
  destruct (Z.leb_spec 0 K); [lia|].
  rewrite elem_of_union, elem_of_list_to_set.
  by rewrite below_at_least_take.
Qed.

Lemma negative_floor_drops_smallest_witness :
  infer_heading_sizes (font_sizes floor_doc) = {[30]} ∧
  11 ∈ heading_sizes floor_doc (Some (-1)).
Proof.
  split; [vm_compute; reflexivity|].
  apply (negative_floor_drops_smallest floor_doc (-1) 11); [lia|].
  right. split.
  - replace (font_sizes floor_doc) with [30; 12; 11; 10]
      by (vm_compute; reflexivity).
    do 2 right. left.
  - exists [10]. split; [apply NoDup_singleton|]. split; [reflexivity|].
    intros y ->%list_elem_of_singleton. split; [|lia].
    replace (font_sizes floor_doc) with [30; 12; 11; 10]
      by (vm_compute; reflexivity).
    do 3 right. left.
Defined.

(* ===================================================================== *)
(** * Blocks in the largest font *)
(* ===================================================================== *)

Lemma block_size_in_block_sizes (b : block) :
  block_spans b ≠ [] → block_size b ∈ block_sizes b.
Proof.
  intros Hne. unfold block_size, block_sizes.
  destruct (block_spans b) as [|s rest] eqn:Hsp; [done|].
  pose proof (max_by_elem s_size s rest) as Hin.
  rewrite <- Hsp in Hin. unfold block_spans in Hin.
  apply list_elem_of_In, in_flat_map in Hin as (ln & Hln & Hsm).
  apply list_elem_of_In, in_flat_map. exists ln. split; [done|].
  unfold collect_line. destruct (spans ln) as [|s' rest'] eqn:Hl; [done|].
  left. apply Z.le_antisymm.
  - apply max_by_ge. rewrite <- Hsp. unfold block_spans.
    apply list_elem_of_In, in_flat_map. exists ln. split; [done|].
    rewrite Hl. apply list_elem_of_In, max_by_elem.
  - apply max_by_ge. by apply list_elem_of_In.
Qed.

Lemma block_sizes_in_font_sizes doc pg b x :
  (pg, b) ∈ placed doc → x ∈ block_sizes b → x ∈ font_sizes doc.
Proof.
  intros (i & p & Hp & _ & Hb & Ht)%elem_of_placed Hx.
  rewrite font_sizes_eq. apply list_elem_of_In, in_flat_map.
  exists p. split.
  { apply list_elem_of_In. by eapply list_elem_of_lookup_2. }
  unfold page_sizes. apply in_flat_map. exists b. split.
  { apply list_elem_of_In. unfold kept_blocks. by apply list_elem_of_filter. }
  by apply list_elem_of_In.
Qed.

Lemma block_size_in_font_sizes doc pg b :
  (pg, b) ∈ placed doc → block_spans b ≠ [] → block_size b ∈ font_sizes doc.
Proof.
  intros Hpl Hne. eapply block_sizes_in_font_sizes; [exact Hpl|].
  by apply block_size_in_block_sizes.
Qed.

(** X4. A block kept by step 1 whose trimmed text is not empty and whose
    largest span is in the largest font size of the document is a heading
    candidate, whatever its text and whatever [heading_font_count]; the
    output then has at least one section. *)
Theorem largest_font_is_heading :
  ∀ (doc : document) (K : option Z) (pg : Z) (b : block),
    (pg, b) ∈ placed doc →
    block_title b ≠ [] →
    (∀ x, x ∈ font_sizes doc → x ≤ block_size b) →
    Heading pg (block_y0 b) (block_title b) ∈ headings doc K ∧
    content (extract_document doc K) ≠ [].
Proof.
  intros doc K pg b Hpl Ht Hmax.
  assert (is_heading (heading_sizes doc K) (block_size b) (block_title b) = true)
    as Hh.
  { unfold is_heading. rewrite !orb_true_iff. do 3 left.
    apply bool_decide_eq_true.
    apply (heading_sizes_floor_subset doc K).
    apply infer_heading_sizes_max; [|done].
    apply (block_size_in_font_sizes doc pg b Hpl).
    by apply block_title_spans. }
  destruct (generated_in_output doc K pg b Hpl Ht Hh) as (Hin & i & body & Hi).
  split; [done|]. intros Hnil. by rewrite Hnil in Hi.
Qed.

Lemma largest_font_is_heading_witness :
  is_heading ∅ 30 (lit "contents") = false ∧
  Heading 1 10 (lit "contents") ∈ headings floor_doc None.
Proof.
  split; [vm_compute; reflexivity|].
  apply (largest_font_is_heading floor_doc None 1
           (one_line_block "contents" 30 10)).
  - apply elem_of_placed. exists 0%nat.
    eexists. split; [reflexivity|]. split; [reflexivity|].
    split; [|reflexivity]. simpl. left.
  - vm_compute. discriminate.
  - replace (font_sizes floor_doc) with [30; 12; 11; 10]
      by (vm_compute; reflexivity).
    intros x Hx. change (block_size (one_line_block "contents" 30 10)) with 30.
    repeat (apply elem_of_cons in Hx as [->|Hx]; [lia|]).
    by apply elem_of_nil in Hx.
Defined.

(** X5. In a document with a single font size, the heading candidates are
    exactly the kept blocks with a non-empty trimmed text: every such block
    opens a section, whatever it says. *)
Theorem single_font_all_headings :
  ∀ (doc : document) (K : option Z),
    (∀ x y, x ∈ font_sizes doc → y ∈ font_sizes doc → x = y) →
    ∀ h, h ∈ headings doc K ↔
         ∃ pg b, (pg, b) ∈ placed doc ∧ block_title b ≠ [] ∧
                 h = Heading pg (block_y0 b) (block_title b).
Proof.
  intros doc K Hone h. split.
  - intros (pg & b & Hpl & _ & Ht & _ & ->)%elem_of_headings. eauto.
  - intros (pg & b & Hpl & Ht & ->).
    apply (largest_font_is_heading doc K pg b Hpl Ht).
    intros x Hx.
    rewrite (Hone x (block_size b) Hx); [lia|].
    apply (block_size_in_font_sizes doc pg b Hpl).
    by apply block_title_spans.
Qed.

Lemma single_font_all_headings_witness :
  is_heading ∅ 10 (lit "the supplier shall deliver all goods on time") = false ∧
  Heading 1 50 (lit "the supplier shall deliver all goods on time")
    ∈ headings plain_doc None.
Proof.
  split; [vm_compute; reflexivity|].
  apply (single_font_all_headings plain_doc None).
  - replace (font_sizes plain_doc) with [10; 10] by (vm_compute; reflexivity).
    intros x y Hx Hy.
    assert (∀ z, z ∈ [10; 10] → z = 10) as Hten.
    { intros z Hz. repeat (apply elem_of_cons in Hz as [->|Hz]; [done|]).
      by apply elem_of_nil in Hz. }
    by rewrite (Hten x Hx), (Hten y Hy).
  - exists 1, (one_line_block "the supplier shall deliver all goods on time" 10 50).
    split; [|split; [vm_compute; discriminate|reflexivity]].
    apply elem_of_placed. exists 0%nat.
    eexists. split; [reflexivity|]. split; [reflexivity|].
    split; [|reflexivity]. simpl. left.
Defined.

(* ===================================================================== *)
(** * Trimmed titles and bodies *)
(* ===================================================================== *)

Lemma lstrip_head (s : str) c r : lstrip s = c :: r → isspace_char c = false.
Proof.
  induction s as [|a s IH]; simpl; [done|].
  destruct (isspace_char a) eqn:Ha; [done|]. by intros [= <- _].
Qed.

Lemma lstrip_id (s : str) :
  (∀ c r, s = c :: r → isspace_char c = false) → lstrip s = s.
Proof.
  destruct s as [|a s]; simpl; [done|]. intros H. by rewrite (H a s).
Qed.

Lemma rstrip_last (s : str) r c : rstrip s = r ++ [c] → isspace_char c = false.
Proof.
  unfold rstrip. intros H. apply (f_equal (@rev ascii)) in H.
  rewrite rev_involutive, rev_app_distr in H. simpl in H.
  by eapply lstrip_head.
Qed.

Lemma rstrip_keeps_head (c : ascii) (r : str) :
  isspace_char c = false → ∃ k, rstrip (c :: r) = c :: k.
Proof.
  intros Hc. destruct (rstrip_app_prefix [c] r) as [k Hk].
  exists k. simpl in Hk. rewrite Hk. unfold rstrip. simpl. by rewrite Hc.
Qed.

Lemma strip_trimmed (s : str) : trimmed (strip s).
Proof.
  unfold strip. split.
  - intros c r Heq. destruct (lstrip s) as [|c0 a] eqn:Ha; [done|].
    pose proof (lstrip_head _ _ _ Ha) as Hc0.
    destruct (rstrip_keeps_head c0 a Hc0) as [k Hk].
    rewrite Hk in Heq. by injection Heq as <- _.
  - intros r c Heq. by eapply rstrip_last.
Qed.

Lemma trimmed_strip (t : str) : trimmed t → strip t = t.
Proof.
  intros [Hhead Hlast]. unfold strip. rewrite (lstrip_id t Hhead).
  unfold rstrip. rewrite lstrip_id; [apply rev_involutive|].
  intros c r Heq. apply (Hlast (rev r) c).
  apply (f_equal (@rev ascii)) in Heq. rewrite rev_involutive in Heq.
  by rewrite Heq.
Qed.

(** X6. Every title and every body of the output is trimmed: it neither
    starts nor ends with a white-space character, and trimming it again
    changes nothing. *)
Theorem output_is_trimmed :
  ∀ (doc : document) (K : option Z) (i : nat) (s : section),
    content (extract_document doc K) !! i = Some s →
    trimmed (sec_section s) ∧ trimmed (sec_text s) ∧
    strip (sec_section s) = sec_section s ∧ strip (sec_text s) = sec_text s.
Proof.
  intros doc K i s. rewrite content_lookup.
  destruct (headings doc K !! i) as [h|] eqn:Hi; [|done].
  simpl. intros [= <-]. simpl.
  assert (trimmed (h_text h)) as Ht.
  { assert (h ∈ headings doc K) as Hin by (by eapply list_elem_of_lookup_2).
    apply elem_of_headings in Hin as (pg & b & _ & _ & _ & _ & ->).
    simpl. apply strip_trimmed. }
  assert (trimmed (section_body (headings doc K) (flat_blocks doc) i h)) as Hb
    by apply strip_trimmed.
  split; [done|]. split; [done|]. split; by apply trimmed_strip.
Qed.

Lemma output_is_trimmed_witness :
  trimmed (lit "1. Introduction") ∧
  trimmed (lit "1. Introduction" ++ newline ++ lit "Intro body.").
Proof.
  destruct (output_is_trimmed scenario None 0
              (Sec (lit "1. Introduction")
                   (lit "1. Introduction" ++ newline ++ lit "Intro body.")))
    as (Ht & Hb & _).
  - vm_compute. reflexivity.
  - split; [exact Ht|exact Hb].
Defined.

(* ===================================================================== *)
(** * Blocks that do not count *)
(* ===================================================================== *)

Lemma block_sizes_nil (b : block) : block_spans b = [] → block_sizes b = [].
Proof.
  unfold block_spans, block_sizes.
  induction (lines b) as [|ln lns IH]; simpl; [done|].
  intros [Hln Hlns]%app_eq_nil. rewrite (IH Hlns).
  unfold collect_line. by rewrite Hln.
Qed.

Lemma kept_blocks_prune_eq (p : page) :
  kept_blocks (prune_page p) = filter (λ b, counts b = true) (blocks p).
Proof.
  unfold kept_blocks, prune_page. simpl.
  induction (blocks p) as [|b bs IH]; [done|].
  destruct (counts b) eqn:Hc.
  - rewrite !(filter_cons_True (λ b, counts b = true)) by done.
    rewrite filter_cons_True; [by rewrite IH|].
    unfold counts in Hc. by apply andb_true_iff in Hc as [? _].
  - rewrite !(filter_cons_False (λ b, counts b = true)) by (rewrite Hc; done).
    done.
Qed.

Lemma kept_blocks_prune {B} (f : block → list B) (p : page) :
  (∀ b, block_spans b = [] → f b = []) →
  flat_map f (kept_blocks (prune_page p)) = flat_map f (kept_blocks p).
Proof.
  intros Hf. rewrite kept_blocks_prune_eq. unfold kept_blocks.
  induction (blocks p) as [|b bs IH]; [done|].
  destruct (text_block b) eqn:Ht.
  - rewrite (filter_cons_True (λ b, text_block b = true)) by done.
    destruct (block_spans b) as [|s rest] eqn:Hsp.
    + rewrite filter_cons_False by (unfold counts; rewrite Ht, Hsp; done).
      simpl. by rewrite IH, (Hf b Hsp).
    + rewrite filter_cons_True by (unfold counts; by rewrite Ht, Hsp).
      simpl. by rewrite IH.
  - rewrite (filter_cons_False (λ b, text_block b = true)) by (rewrite Ht; done).
    rewrite filter_cons_False by (unfold counts; rewrite Ht; done).
    done.
Qed.

Lemma font_sizes_prune doc : font_sizes (prune doc) = font_sizes doc.
Proof.
  rewrite !font_sizes_eq. unfold prune.
  induction doc as [|p doc IH]; simpl; [done|].
  rewrite IH. f_equal. unfold page_sizes.
  apply kept_blocks_prune, block_sizes_nil.
Qed.

Lemma placed_prune {B} (f : Z → block → list B) doc :
  (∀ pg b, block_spans b = [] → f pg b = []) →
  flat_map (λ x, f x.1 x.2) (placed (prune doc)) =
  flat_map (λ x, f x.1 x.2) (placed doc).
Proof.
  intros Hf. unfold placed.
  rewrite <- !(flat_map_placed f), !pages_blocks_eq. unfold prune.
  assert (∀ n (l : list page),
    imap ((λ (i : nat) p, (n + Z.of_nat i, kept_blocks p)) ∘ S) l =
    imap (λ (i : nat) p, (n + 1 + Z.of_nat i, kept_blocks p)) l) as Hshift.
  { intros n l. apply imap_ext. intros i x _. simpl. f_equal. lia. }
  generalize 1. induction doc as [|p doc IH]; intros n; [done|].
  simpl. f_equal.
  - apply kept_blocks_prune, Hf.
  - rewrite !Hshift. apply IH.
Qed.

Lemma heading_sizes_prune doc K :
  heading_sizes (prune doc) K = heading_sizes doc K.
Proof. unfold heading_sizes. by rewrite font_sizes_prune. Qed.

(** X7. Blocks that are not of type 0, have no line or have no span never
    influence the result: removing them from every page leaves the output
    unchanged. *)
Theorem ignored_blocks_do_not_matter :
  ∀ (doc : document) (K : option Z),
    extract_document (prune doc) K = extract_document doc K.
Proof.
  intros doc K.
  assert (headings (prune doc) K = headings doc K) as Hh.
  { rewrite !headings_eq. f_equal. unfold found_headings.
    rewrite heading_sizes_prune.
    apply (placed_prune (λ pg b, heading_block (heading_sizes doc K) pg [] b)).
    intros pg b Hsp. unfold heading_block. by rewrite Hsp. }
  assert (flat_blocks (prune doc) = flat_blocks doc) as Hf.
  { rewrite !flat_blocks_eq. f_equal. unfold found_blocks.
    apply (placed_prune (λ pg b, flat_block pg [] b)).
    intros pg b Hsp. unfold flat_block. by rewrite Hsp. }
  unfold extract_document. by rewrite Hh, Hf.
Qed.

(* ===================================================================== *)
(** * The sort keeps document order among equal positions *)
(* ===================================================================== *)

(** X8. Both sorts are stable: the headings at one (page, y0) position stay
    in the order in which the blocks were collected, page by page and block
    by block, and so do the blocks at one position. *)
Theorem equal_positions_keep_document_order :
  ∀ (doc : document) (K : option Z) (k : Z * Z),
    filter (λ h, heading_key h = k) (headings doc K) =
      filter (λ h, heading_key h = k) (found_headings doc K) ∧
    filter (λ x, flat_key x = k) (flat_blocks doc) =
      filter (λ x, flat_key x = k) (found_blocks doc).
Proof.
  intros doc K k. split.
  - rewrite headings_eq. apply filter_sorted_by.
  - rewrite flat_blocks_eq. apply filter_sorted_by.
Qed.

(* ===================================================================== *)
(** * Sections are consecutive runs of the reading order *)
(* ===================================================================== *)

Section Runs.
Context {A : Type} (key : A → Z * Z).

Lemma filter_below_nil (a b : Z * Z) (l : list A) :
  Forall (λ y, lex_le b (key y)) l →
  filter (λ x, lex_le a (key x) ∧ lex_lt (key x) b) l = [].
Proof.
  induction 1 as [|y l Hy Hl IH]; [done|].
  rewrite filter_cons_False; [done|]. intros [_ Hlt]. lex.
Qed.

Lemma filter_split_sorted (a b : Z * Z) (l : list A) :
  StronglySorted (λ x y, lex_le (key x) (key y)) l →
  lex_le a b →
  filter (λ x, lex_le a (key x) ∧ lex_lt (key x) b) l ++
    filter (λ x, lex_le b (key x)) l =
  filter (λ x, lex_le a (key x)) l.
Proof.
  intros Hs Hab. induction Hs as [|x l Hs IH Hall]; [done|].
  destruct (decide (lex_le b (key x))) as [Hbx|Hbx].
  - assert (Forall (λ y, lex_le b (key y)) l) as Hge.
    { eapply Forall_impl; [exact Hall|]. intros y Hy. simpl in Hy. lex. }
    rewrite (filter_cons_False _ x) by (intros [_ Hlt]; lex).
    rewrite (filter_cons_True (λ x, lex_le b (key x))) by done.
    rewrite (filter_cons_True (λ x, lex_le a (key x))) by lex.
    rewrite <- IH. by rewrite (filter_below_nil a b l Hge).
  - rewrite (filter_cons_False (λ x, lex_le b (key x))) by done.
    destruct (decide (lex_le a (key x))) as [Hax|Hax].
    + rewrite (filter_cons_True _ x) by (split; [done|lex]).
      rewrite (filter_cons_True (λ x, lex_le a (key x))) by done.
      simpl. by rewrite IH.
    + rewrite (filter_cons_False _ x) by (by intros [? _]).
      rewrite (filter_cons_False (λ x, lex_le a (key x))) by done.
      done.
Qed.
End Runs.

Lemma section_members_tail h hds flat (i : nat) h' :
  section_members (h :: hds) flat (S i) h' = section_members hds flat i h'.
Proof. done. Qed.

Lemma sections_concat (hds : list heading) (flat : list (Z * block * Z)) h0 :
  StronglySorted (λ a b, lex_le (heading_key a) (heading_key b)) hds →
  StronglySorted (λ a b, lex_le (flat_key a) (flat_key b)) flat →
  hds !! 0%nat = Some h0 →
  concat (imap (λ i h, section_members hds flat i h) hds) =
  filter (λ x, lex_le (heading_key h0) (flat_key x)) flat.
Proof.
  intros Hs Hflat. revert h0.
  induction Hs as [|h hds Hs IH Hall]; intros h0 H0; [done|].
  simpl in H0. injection H0 as ->.
  rewrite imap_cons. simpl concat.
  rewrite (imap_ext _ (λ i h, section_members hds flat i h))
    by (intros; apply section_members_tail).
  destruct hds as [|h' hds'].
  - simpl. rewrite app_nil_r. unfold section_members.
    apply list_filter_iff. intros x. rewrite in_section_spec. simpl.
    split; [by intros [? _]|]. intros Hle. split; [done|]. intros n Hn. done.
  - rewrite (IH h' eq_refl).
    rewrite <- (filter_split_sorted flat_key (heading_key h0) (heading_key h') flat Hflat).
    + f_equal. unfold section_members.
      apply list_filter_iff. intros x. rewrite in_section_spec. simpl.
      split.
      * intros [Hle Hlt]. split; [done|]. by apply (Hlt h').
      * intros [Hle Hlt]. split; [done|]. by intros n [= <-].
    + rewrite Forall_forall in Hall. apply Hall. by left.
Qed.

(** X9. Put one after the other in output order, the block lists of the
    sections are exactly the blocks that lie at or after the first heading,
    in reading order: the sections cut that sequence into consecutive runs,
    with no block repeated, dropped or moved. *)
Theorem sections_are_consecutive_runs :
  ∀ (doc : document) (K : option Z) (h0 : heading),
    headings doc K !! 0%nat = Some h0 →
    concat (imap (λ i h, section_members (headings doc K) (flat_blocks doc) i h)
                 (headings doc K)) =
    filter (λ x, lex_le (heading_key h0) (flat_key x)) (flat_blocks doc).
Proof.
  intros doc K h0 H0.
  apply sections_concat; [apply headings_sorted|apply flat_blocks_sorted|done].
Qed.

Lemma sections_are_consecutive_runs_witness :
  concat (imap (λ i h, section_members (headings scenario None)
                         (flat_blocks scenario) i h)
               (headings scenario None)) =
  filter (λ x, lex_le (1, 50) (flat_key x)) (flat_blocks scenario).
Proof.
  apply (sections_are_consecutive_runs scenario None
           (Heading 1 50 (lit "1. Introduction"))).
  vm_compute. reflexivity.
Defined.

(* ===================================================================== *)
(** * Where a heading sits *)
(* ===================================================================== *)

Lemma min_of_spec (x : Z) (l : list Z) :
  min_of x l ∈ x :: l ∧ ∀ y, y ∈ x :: l → min_of x l ≤ y.
Proof.
  unfold min_of. revert x. induction l as [|a l IH]; intros x; simpl.
  - split; [by left|]. intros y ->%list_elem_of_singleton. lia.
  - destruct (IH (Z.min x a)) as [Hin Hle]. split.
    + apply elem_of_cons in Hin as [Hin|Hin]; [|by do 2 right].
      rewrite Hin. destruct (Z.min_spec x a) as [[_ ->]|[_ ->]];
        [by left|right; by left].
    + intros y Hy.
      assert (fold_left Z.min l (Z.min x a) ≤ Z.min x a) as Hm
        by (apply Hle; by left).
      apply elem_of_cons in Hy as [->|Hy]; [lia|].
      apply elem_of_cons in Hy as [->|Hy]; [lia|].
      apply Hle. by right.
Qed.

Lemma block_y0_spec (b : block) :
  block_spans b ≠ [] →
  (∃ sp, sp ∈ block_spans b ∧ bbox1 sp = block_y0 b) ∧
  (∀ sp, sp ∈ block_spans b → block_y0 b ≤ bbox1 sp).
Proof.
  intros Hne. unfold block_y0.
  destruct (block_spans b) as [|s rest]; [done|].
  destruct (min_of_spec (bbox1 s) (map bbox1 rest)) as [Hin Hle].
  change (bbox1 s :: map bbox1 rest) with (map bbox1 (s :: rest)) in Hin, Hle.
  split.
  - apply list_elem_of_In, in_map_iff in Hin as (sp & Heq & Hsp).
    exists sp. split; [by apply list_elem_of_In|done].
  - intros sp Hsp. apply Hle. apply list_elem_of_In, in_map.
    by apply list_elem_of_In.
Qed.

(** X10. Every heading of the output comes from a block kept by step 1: its
    page number counts pages from 1 and is at most the number of pages, its
    text is the trimmed text of that block, and its vertical position is the
    smallest top coordinate among the spans of that block. *)
Theorem heading_sits_on_its_block :
  ∀ (doc : document) (K : option Z) (h : heading),
    h ∈ headings doc K →
    1 ≤ h_page h ≤ Z.of_nat (length doc) ∧
    ∃ b, (h_page h, b) ∈ placed doc ∧
         h_text h = block_title b ∧
         (∃ sp, sp ∈ block_spans b ∧ bbox1 sp = h_y0 h) ∧
         (∀ sp, sp ∈ block_spans b → h_y0 h ≤ bbox1 sp).
Proof.
  intros doc K h (pg & b & Hpl & Hsp & _ & _ & ->)%elem_of_headings. simpl.
  split.
  - apply elem_of_placed in Hpl as (i & p & Hp & -> & _).
    apply lookup_lt_Some in Hp. lia.
  - exists b. split; [done|]. split; [done|]. by apply block_y0_spec.
Qed.

Lemma heading_sits_on_its_block_witness :
  1 ≤ 2 ≤ Z.of_nat (length scenario) ∧
  ∃ b, (2, b) ∈ placed scenario ∧
       lit "2. Pricing" = block_title b ∧
       (∃ sp, sp ∈ block_spans b ∧ bbox1 sp = 40) ∧
       (∀ sp, sp ∈ block_spans b → 40 ≤ bbox1 sp).
Proof.
  apply (heading_sits_on_its_block scenario None
           (Heading 2 40 (lit "2. Pricing"))).
  replace (headings scenario None)
    with [Heading 1 50 (lit "1. Introduction"); Heading 2 40 (lit "2. Pricing")]
    by (vm_compute; reflexivity).
  right. left.
Defined.

(* ===================================================================== *)
(** * Substring tests *)
(* ===================================================================== *)

Lemma startswith_spec (p s : str) : startswith p s = true ↔ ∃ r, s = p ++ r.
Proof.
  revert s. induction p as [|a p IH]; intros s; simpl.
  - split; [by exists s|done].
  - destruct s as [|b s].
    + split; [done|]. by intros [r Hr].
    + rewrite andb_true_iff, IH, Ascii.eqb_eq. split.
      * intros [-> [r ->]]. by exists r.
      * intros [r [= -> ->]]. split; [done|by exists r].
Qed.

Lemma contains_spec (needle s : str) :
  contains needle s = true ↔ ∃ pre post, s = pre ++ needle ++ post.
Proof.
  induction s as [|c s IH]; simpl.
  - rewrite orb_false_r, startswith_spec. split.
    + intros [r Hr]. by exists [], r.
    + intros (pre & post & Heq). destruct pre; [by exists post|done].
  - rewrite orb_true_iff, startswith_spec, IH. split.
    + intros [[r Hr]|(pre & post & ->)]; [by exists [], r|].
      by exists (c :: pre), post.
    + intros ([|a pre] & post & Heq).
      * left. by exists post.
      * right. injection Heq as -> ->. by exists pre, post.
Qed.

Lemma endswith_spec (p s : str) : endswith p s = true ↔ ∃ r, s = r ++ p.
Proof.
  unfold endswith. rewrite startswith_spec. split.
  - intros [r Hr]. exists (rev r).
    apply (f_equal (@rev ascii)) in Hr.
    by rewrite rev_involutive, rev_app_distr, rev_involutive in Hr.
  - intros [r ->]. exists (rev r). by rewrite rev_app_distr.
Qed.

Lemma contains_lower_mentions (w text : str) :
  contains w (lower text) = true ↔ mentions w text.
Proof.
  rewrite contains_spec. unfold mentions, lower. split.
  - intros (pre & post & Heq).
    apply map_eq_app in Heq as (l1 & l2 & -> & _ & Heq).
    apply map_eq_app in Heq as (l3 & l4 & -> & Hw & _).
    by exists l1, l3, l4.
  - intros (pre & mid & post & -> & <-).
    exists (map lower_char pre), (map lower_char post).
    by rewrite !List.map_app.
Qed.

(* ===================================================================== *)
(** * The relevance filter *)
(* ===================================================================== *)

Lemma section_verdict_fields key crit generate sec :
  r_section (process_pdf_section key crit generate sec) = sec_section sec ∧
  r_content (process_pdf_section key crit generate sec) = sec_text sec.
Proof.
  unfold process_pdf_section. destruct (key_missing key); [done|].
  by destruct (generate _).
Qed.

(** X11. The filter's verdict on one section keeps the section's title and
    text, and says that the section meets the criteria exactly when the API
    key is set and the service replied with a text that holds "yes" or
    "true" somewhere, in any mix of upper and lower case; an exception from
    the service gives a negative verdict. *)
Theorem section_verdict :
  ∀ (key : option str) (crit : str) (generate : str → llm_reply) (sec : section),
    r_section (process_pdf_section key crit generate sec) = sec_section sec ∧
    r_content (process_pdf_section key crit generate sec) = sec_text sec ∧
    (meets_criteria (process_pdf_section key crit generate sec) = true ↔
     key_missing key = false ∧
     ∃ text, generate (section_prompt crit sec) = Replied text ∧ says_yes text).
Proof.
  intros key crit generate sec. unfold process_pdf_section, says_yes.
  destruct (key_missing key); simpl.
  { split; [done|]. split; [done|]. split; [done|by intros [? _]]. }
  destruct (generate (section_prompt crit sec)) as [text|t e]; simpl.
  - split; [done|]. split; [done|].
    rewrite orb_true_iff, !contains_lower_mentions. split.
    + intros H. split; [done|]. by exists text.
    + by intros (_ & text' & [= <-] & H).
  - split; [done|]. split; [done|]. split; [done|].
    by intros (_ & text' & ? & _).
Qed.

Lemma process_results_titles key crit generate (sections : list section) :
  r_section <$> imap (λ i sec, process_pdf_section key crit (generate i) sec)
                     sections = sec_section <$> sections ∧
  r_content <$> imap (λ i sec, process_pdf_section key crit (generate i) sec)
                     sections = sec_text <$> sections.
Proof.
  split; apply list_eq; intros i;
    rewrite !list_lookup_fmap, list_lookup_imap;
    destruct (sections !! i) as [sec|]; simpl; try done; f_equal;
    apply (section_verdict_fields key crit (generate i) sec).
Qed.

(** X12. When the parser's result has sections, the filter reports success
    and answers for every section, in the same order and with the section's
    own title and text, whatever the service does; the matching sections are
    those answers, in order, whose verdict is positive, and the counts it
    reports are the numbers of sections and of matching sections. *)
Theorem filter_answers_every_section :
  ∀ (key : option str) (crit : str) (generate : nat → str → llm_reply)
    (parsed : result),
    content parsed ≠ [] →
    status (analyze_pdf_sections key crit generate (Some parsed)) = lit "success" ∧
    total_sections (analyze_pdf_sections key crit generate (Some parsed))
      = Some (length (content parsed)) ∧
    ∃ results,
      all_sections (analyze_pdf_sections key crit generate (Some parsed))
        = Some results ∧
      r_section <$> results = sec_section <$> content parsed ∧
      r_content <$> results = sec_text <$> content parsed ∧
      matching_sections (analyze_pdf_sections key crit generate (Some parsed))
        = filter (λ r, meets_criteria r = true) results ∧
      matching_sections (analyze_pdf_sections key crit generate (Some parsed))
        `sublist_of` results ∧
      matching_count (analyze_pdf_sections key crit generate (Some parsed))
        = Some (length (matching_sections
                          (analyze_pdf_sections key crit generate (Some parsed)))) ∧
      (length (matching_sections
                 (analyze_pdf_sections key crit generate (Some parsed)))
         ≤ length (content parsed))%nat.
Proof.
  intros key crit generate parsed Hne.
  unfold analyze_pdf_sections, process_pdf_sections.
  destruct (content parsed) as [|sec secs] eqn:Hc; [done|].
  cbn [is_empty status total_sections all_sections matching_sections
       matching_count].
  split; [done|]. split; [done|].
  eexists. split; [reflexivity|].
  destruct (process_results_titles key crit generate (sec :: secs)) as [Ht Hb].
  split; [exact Ht|]. split; [exact Hb|]. split; [done|].
  split; [apply sublist_filter|]. split; [done|].
  etrans; [apply length_filter|]. by rewrite length_imap.
Qed.

Lemma filter_answers_every_section_witness :
  status (analyze_pdf_sections (Some (lit "key")) (lit "criteria") always_yes
            (Some (extract_document scenario None))) = lit "success" ∧
  total_sections (analyze_pdf_sections (Some (lit "key")) (lit "criteria")
                    always_yes (Some (extract_document scenario None)))
    = Some 2%nat.
Proof.
  destruct (filter_answers_every_section (Some (lit "key")) (lit "criteria")
              always_yes (extract_document scenario None))
    as (Hs & Ht & _).
  - vm_compute. discriminate.
  - split; [exact Hs|]. rewrite Ht. vm_compute. reflexivity.
Defined.

Lemma results_without_key key crit generate (sections : list section) :
  key_missing key = true →
  imap (λ i sec, process_pdf_section key crit (generate i) sec) sections =
  (λ sec, SectionResult (sec_section sec) (sec_text sec) false
            (lit "Error: GOOGLE_API_KEY environment variable not set. Make sure to add it to your .env file and install python-dotenv."))
    <$> sections.
Proof.
  intros Hkey. rewrite <- imap_const. apply imap_ext. intros i x _.
  unfold process_pdf_section. by rewrite Hkey.
Qed.

Lemma filter_negative_verdicts {A} (f : A → section_result) (l : list A) :
  (∀ x, meets_criteria (f x) = false) →
  filter (λ r, meets_criteria r = true) (f <$> l) = [].
Proof.
  intros Hf. induction l as [|x l IH]; [done|]. simpl.
  rewrite filter_cons_False; [exact IH|]. by rewrite Hf.
Qed.

Lemma matching_without_key key crit generate parsed :
  key_missing key = true →
  matching_sections (analyze_pdf_sections key crit generate parsed) = [].
Proof.
  intros Hkey. unfold analyze_pdf_sections, process_pdf_sections.
  destruct (is_empty _); [done|].
  cbn [matching_sections]. rewrite results_without_key by done.
  by apply filter_negative_verdicts.
Qed.

(** X13. Without an API key (unset or empty) no section ever matches and
    the service is not consulted: every verdict is negative and carries the
    fixed error text, yet the filter still reports success when there are
    sections. *)
Theorem filter_without_key :
  ∀ (key : option str) (crit : str) (generate : nat → str → llm_reply)
    (parsed : result),
    key_missing key = true →
    matching_sections (analyze_pdf_sections key crit generate (Some parsed)) = [] ∧
    (content parsed ≠ [] →
     status (analyze_pdf_sections key crit generate (Some parsed)) = lit "success" ∧
     matching_count (analyze_pdf_sections key crit generate (Some parsed))
       = Some 0%nat ∧
     all_sections (analyze_pdf_sections key crit generate (Some parsed))
       = Some ((λ sec,
                 SectionResult (sec_section sec) (sec_text sec) false
                   (lit "Error: GOOGLE_API_KEY environment variable not set. Make sure to add it to your .env file and install python-dotenv."))
               <$> content parsed)).
Proof.
  intros key crit generate parsed Hkey.
  split; [by apply matching_without_key|].
  unfold analyze_pdf_sections, process_pdf_sections.
  destruct (content parsed) as [|sec secs] eqn:Hc; [done|].
  cbn [is_empty status all_sections matching_sections matching_count].
  intros _. rewrite results_without_key by done.
  rewrite filter_negative_verdicts by done. done.
Qed.

Lemma filter_without_key_witness :
  matching_sections (analyze_pdf_sections None (lit "criteria") always_yes
                       (Some (extract_document scenario None))) = [].
Proof.
  apply (filter_without_key None (lit "criteria") always_yes
           (extract_document scenario None)).
  reflexivity.
Defined.

(* ===================================================================== *)
(** * The summarizer *)
(* ===================================================================== *)


(* ===================================================================== *)
(** * The rule extractor *)
(* ===================================================================== *)

Lemma validate_parsed_success text value :
  e_success (validate_parsed text value) = true ↔ evaluation_model_shape value.
Proof.
  unfold validate_parsed, evaluation_model_shape.
  destruct value as [| | | | |members];
    try (split; [done|by intros (? & ? & ? & ? & _)]).
  destruct (obj_get (lit "variables") members) as [[| | | | |variables]|] eqn:Hv;
    try (split; [done|by intros (? & ? & ? & [= <-] & ? & _); congruence]).
  destruct (obj_get (lit "rules") members) as [[| | | |rules|]|] eqn:Hr;
    try (split; [done| intros (? & ? & ? & [= <-] & ? & ? & _); congruence]).
  destruct variables as [|v variables], rules as [|r rules];
    cbn [is_empty andb e_success].
  - split; [done|].
    intros (? & ? & ? & [= <-] & Hv' & Hr' & Hne).
    rewrite Hv in Hv'. rewrite Hr in Hr'.
    injection Hv' as <-. injection Hr' as <-. by destruct Hne.
  - split; [|done]. intros _. exists members, [], (r :: rules).
    repeat split; try done. by right.
  - split; [|done]. intros _. exists members, (v :: variables), [].
    repeat split; try done. by left.
  - split; [|done]. intros _. exists members, (v :: variables), (r :: rules).
    repeat split; try done. by left.
Qed.

Lemma validate_parsed_fields text value :
  (e_success (validate_parsed text value) = true →
   data (validate_parsed text value) = Some value ∧
   e_message (validate_parsed text value) = None ∧
   raw_response (validate_parsed text value) = None) ∧
  (e_success (validate_parsed text value) = false →
   data (validate_parsed text value) = None ∧
   is_Some (e_message (validate_parsed text value))).
Proof.
  unfold validate_parsed.
  destruct value as [| | | | |members]; try (split; [done|by eauto]).
  destruct (obj_get (lit "variables") members) as [[| | | | |variables]|];
    try (split; [done|by eauto]).
  destruct (obj_get (lit "rules") members) as [[| | | |rules|]|];
    try (split; [done|by eauto]).
  destruct (is_empty variables && is_empty rules); split; try done; by eauto.
Qed.

(** X15. The rule extractor succeeds exactly when there are matching
    sections, the API key is set, the service replied, the trimmed reply
    ends with a closing brace, and the reply parses to an object with an
    object under "variables" and an array under "rules", not both empty;
    the data returned is then that parsed object, with no message.  Every
    failure returns no data and a message. *)
Theorem extractor_success :
  ∀ (key : option str) (generate : str → llm_reply)
    (loads : str → json_outcome) (a : analysis_results),
    (e_success (parse_evaluation_components key generate loads a) = true ↔
     matching_sections a ≠ [] ∧ key_missing key = false ∧
     ∃ text body value,
       generate (evaluation_prompt (matching_sections a)
                   (default [] (evaluation_summary a))) = Replied text ∧
       strip text = body ++ lit "}" ∧
       loads text = Parsed value ∧
       evaluation_model_shape value ∧
       data (parse_evaluation_components key generate loads a) = Some value) ∧
    (e_success (parse_evaluation_components key generate loads a) = true →
     e_message (parse_evaluation_components key generate loads a) = None ∧
     raw_response (parse_evaluation_components key generate loads a) = None) ∧
    (e_success (parse_evaluation_components key generate loads a) = false →
     data (parse_evaluation_components key generate loads a) = None ∧
     is_Some (e_message (parse_evaluation_components key generate loads a))).
Proof.
  intros key generate loads a.
  unfold parse_evaluation_components, parse_matching_sections.
  change (match evaluation_summary a with Some s => s | None => [] end)
    with (default [] (evaluation_summary a)).
  destruct (matching_sections a) as [|m ms] eqn:Hm;
    cbn [is_empty e_success e_message raw_response data].
  { split; [|by eauto]. split; [done|by intros [? _]]. }
  destruct (key_missing key);
    cbn [is_empty e_success e_message raw_response data].
  { split; [|by eauto]. split; [done|by intros (_ & ? & _)]. }
  destruct (generate _) as [text|[|] e] eqn:Hg;
    cbn [is_empty e_success e_message raw_response data];
    try (split; [|by eauto]; split; [done|by intros (_ & _ & ? & ? & ? & ? & _)]).
  destruct (endswith (lit "}") (strip text)) eqn:He;
    cbn [negb is_empty e_success e_message raw_response data].
  2:{ split; [|by eauto]. split; [done|].
      intros (_ & _ & text' & body & value & [= <-] & Hs & _).
      assert (endswith (lit "}") (strip text) = true) as He'
        by (apply endswith_spec; by exists body).
      congruence. }
  apply endswith_spec in He as [body Hbody].
  destruct (loads text) as [value| |e] eqn:Hl;
    cbn [e_success e_message raw_response data];
    try (split; [|by eauto]; split; [done|];
         intros (_ & _ & text' & ? & ? & [= <-] & _ & ? & _); congruence).
  pose proof (validate_parsed_success text value) as Hok.
  pose proof (validate_parsed_fields text value) as [Hyes Hno].
  split; [|split; [intros H; by destruct (Hyes H) as (_ & ? & ?)|exact Hno]].
  split.
  - intros H. split; [done|]. split; [done|].
    exists text, body, value. split; [done|]. split; [done|]. split; [done|].
    split; [by apply Hok|]. by destruct (Hyes H).
  - intros (_ & _ & text' & body' & value' & [= <-] & _ & Hl' & Hshape & _).
    rewrite Hl in Hl'. injection Hl' as <-. by apply Hok.
Qed.

(* ===================================================================== *)
(** * The endpoints *)
(* ===================================================================== *)

Lemma extract_everything_opened (sv : services) path doc :
  fitz sv path = inr doc →
  extract_everything (fitz_open sv) path None
    = Returns (extract_document doc None).
Proof. intros H. unfold extract_everything, fitz_open. by rewrite H. Qed.

Lemma extract_everything_failed (sv : services) path e :
  fitz sv path = inl e →
  extract_everything (fitz_open sv) path None = DocumentParseError ∧
  open_error sv path = e.
Proof.
  intros H. unfold extract_everything, fitz_open, open_error. by rewrite H.
Qed.

(** X16. For a decoded document in which no block passes the heading tests,
    the three endpoints answer without consulting the language model, the
    API key or the JSON parser: the scraper returns an empty [content], the
    analysis reports the error "No sections found in the parsed PDF data",
    and the full pipeline returns a failure with the message "No matching
    sections found in the analysis results" and an empty summary. *)
Theorem endpoints_without_sections :
  ∀ (sv : services) (path : str) (doc : document),
    fitz sv path = inr doc →
    (∀ pg b h, (pg, b) ∈ placed doc →
               ¬ generates (heading_sizes doc None) pg b h) →
    upload_p sv path = Extracted (Result []) ∧
    analyze_pdf_sections_endpoint sv path =
      Analysis (AnalysisResults (lit "error")
                  (Some (lit "No sections found in the parsed PDF data"))
                  None None None [] None) ∧
    parse_with_summary_endpoint sv path =
      Components (EvaluationResults false
                    (Some (lit "No matching sections found in the analysis results"))
                    None None) [].
Proof.
  intros sv path doc Hopen Hno.
  assert (extract_document doc None = Result []) as Hdoc.
  { unfold extract_document. by rewrite (headings_nil doc None Hno). }
  unfold upload_p, analyze_pdf_sections_endpoint, parse_with_summary_endpoint.
  rewrite (extract_everything_opened sv path doc Hopen), Hdoc.
  done.
Qed.

Lemma endpoints_without_sections_witness :
  parse_with_summary_endpoint (sample_services blank_title_doc (Some (lit "key")))
    (lit "app/uploads/tender.pdf") =
  Components (EvaluationResults false
                (Some (lit "No matching sections found in the analysis results"))
                None None) [].
Proof.
  apply (endpoints_without_sections
           (sample_services blank_title_doc (Some (lit "key")))
           (lit "app/uploads/tender.pdf") blank_title_doc);
    [reflexivity|].
  intros pg b h Hpl (_ & Ht & Hh & _).
  assert (placed blank_title_doc =
          [ (1, one_line_block " " 20 10);
            (1, one_line_block "plain body text follows here today" 10 50) ])
    as Hplaced by (vm_compute; reflexivity).
  rewrite Hplaced in Hpl.
  apply elem_of_cons in Hpl as [Heq|Hpl].
  { injection Heq as -> ->. apply Ht. vm_compute. reflexivity. }
  apply elem_of_cons in Hpl as [Heq|Hpl].
  { injection Heq as -> ->. vm_compute in Hh. discriminate. }
  by apply elem_of_nil in Hpl.
Defined.

Lemma run_summarization_exn_setup key prompt setup generate parsed e :
  content parsed ≠ [] → key_missing key = false → setup = Some e →
  run_summarization_exn key prompt setup generate parsed = inl e.
Proof.
  intros Hne Hkey ->.
  unfold run_summarization_exn, summarize_relevant_content_exn.
  destruct (content parsed); [done|]. cbn [is_empty]. by rewrite Hkey.
Qed.

(** X17. When a call into the PDF library raises, the two endpoints with a
    [try] answer status 500 with their prefix followed by the text of the
    exception, and the scraper endpoint lets the exception through.  The
    full pipeline answers the same status 500 when the document decodes
    into at least one section, the API key is set and the set-up of the
    summarizer's model raises: that exception is raised before the [try] of
    the summarizer and is caught by the endpoint. *)
Theorem endpoints_on_unreadable_file :
  ∀ (sv : services) (path : str),
    (∀ e, fitz sv path = inl e →
       upload_p sv path = Unhandled ∧
       analyze_pdf_sections_endpoint sv path =
         Status500 (lit "Analysis failed: " ++ e) ∧
       parse_with_summary_endpoint sv path =
         Status500 (lit "Full pipeline with summary failed: " ++ e)) ∧
    (∀ doc e, fitz sv path = inr doc →
       content (extract_document doc None) ≠ [] →
       key_missing (api_key sv) = false →
       summary_setup sv = Some e →
       parse_with_summary_endpoint sv path =
         Status500 (lit "Full pipeline with summary failed: " ++ e)).
Proof.
  intros sv path. split.
  - intros e He. destruct (extract_everything_failed sv path e He) as [Hx Herr].
    unfold upload_p, analyze_pdf_sections_endpoint, parse_with_summary_endpoint.
    by rewrite Hx, Herr.
  - intros doc e Hdoc Hne Hkey Hsetup. unfold parse_with_summary_endpoint.
    rewrite (extract_everything_opened sv path doc Hdoc).
    by rewrite (run_summarization_exn_setup _ _ _ _ _ e Hne Hkey Hsetup).
Qed.

Lemma endpoints_on_unreadable_file_witness :
  parse_with_summary_endpoint broken_services (lit "app/uploads/broken.pdf") =
    Status500 (lit "Full pipeline with summary failed: " ++
               lit "cannot open broken document") ∧
  parse_with_summary_endpoint unconfigured_services
      (lit "app/uploads/tender.pdf") =
    Status500 (lit "Full pipeline with summary failed: " ++
               lit "invalid transport").
Proof.
  split.
  - destruct (proj1 (endpoints_on_unreadable_file broken_services
                       (lit "app/uploads/broken.pdf"))
                (lit "cannot open broken document") eq_refl) as (_ & _ & H).
    exact H.
  - apply (proj2 (endpoints_on_unreadable_file unconfigured_services
                    (lit "app/uploads/tender.pdf"))
             scenario (lit "invalid transport"));
      [reflexivity|vm_compute; discriminate|reflexivity|reflexivity].
Defined.

Lemma summary_without_key key prompt generate parsed :
  key_missing key = true →
  summary (run_summarization key prompt generate parsed) = [].
Proof.
  intros Hkey. unfold run_summarization, summarize_relevant_content.
  destruct (is_empty _); [done|]. by rewrite Hkey.
Qed.

Lemma run_summarization_exn_without_key key prompt setup generate parsed :
  key_missing key = true →
  run_summarization_exn key prompt setup generate parsed
    = inr (run_summarization key prompt generate parsed).
Proof.
  intros Hkey.
  unfold run_summarization_exn, summarize_relevant_content_exn,
    run_summarization, summarize_relevant_content.
  destruct (is_empty _); [done|]. by rewrite Hkey.
Qed.

(** X18. Without an API key (unset or empty) the full pipeline answers, for
    every decoded document, the failure "No matching sections found in the
    analysis results" with an empty summary: the missing key is never
    named, and neither the language model nor the JSON parser is
    consulted. *)
Theorem pipeline_without_key :
  ∀ (sv : services) (path : str) (doc : document),
    fitz sv path = inr doc →
    key_missing (api_key sv) = true →
    parse_with_summary_endpoint sv path =
      Components (EvaluationResults false
                    (Some (lit "No matching sections found in the analysis results"))
                    None None) [].
Proof.
  intros sv path doc Hopen Hkey. unfold parse_with_summary_endpoint.
  rewrite (extract_everything_opened sv path doc Hopen).
  rewrite run_summarization_exn_without_key by done.
  rewrite summary_without_key by done.
  unfold parse_evaluation_components, parse_matching_sections.
  cbn [matching_sections]. by rewrite matching_without_key.
Qed.

Lemma pipeline_without_key_witness :
  content (extract_document scenario None) ≠ [] ∧
  parse_with_summary_endpoint (sample_services scenario None)
    (lit "app/uploads/tender.pdf") =
  Components (EvaluationResults false
                (Some (lit "No matching sections found in the analysis results"))
                None None) [].
Proof.
  split; [vm_compute; discriminate|].
  apply (pipeline_without_key (sample_services scenario None)
           (lit "app/uploads/tender.pdf") scenario); reflexivity.
Defined.

Lemma meets_criteria_inv key crit generate sec :
  meets_criteria (process_pdf_section key crit generate sec) = true →
  key_missing key = false ∧
  ∃ text, generate (section_prompt crit sec) = Replied text ∧ says_yes text.
Proof.
  unfold process_pdf_section, says_yes.
  destruct (key_missing key); [done|].
  destruct (generate _) as [text|t e]; [|done]. simpl.
  rewrite orb_true_iff, !contains_lower_mentions. eauto.
Qed.

Lemma matching_section_inv key crit generate parsed r :
  r ∈ matching_sections (analyze_pdf_sections key crit generate (Some parsed)) →
  key_missing key = false ∧
  ∃ (i : nat) sec text,
    content parsed !! i = Some sec ∧
    generate i (section_prompt crit sec) = Replied text ∧ says_yes text.
Proof.
  unfold analyze_pdf_sections, process_pdf_sections.
  destruct (is_empty _); cbn [matching_sections];
    [by intros ?%elem_of_nil|].
  intros [Hm Hin]%list_elem_of_filter.
  apply elem_of_lookup_imap in Hin as (i & sec & -> & Hi).
  destruct (meets_criteria_inv _ _ _ _ Hm) as (Hkey & text & Hg & Hyes).
  eauto 10.
Qed.

Lemma parse_matching_sections_inv key generate loads a :
  e_success (parse_matching_sections key generate loads a) = true →
  matching_sections a ≠ [] ∧
  ∃ value, data (parse_matching_sections key generate loads a) = Some value ∧
           evaluation_model_shape value.
Proof.
  unfold parse_matching_sections.
  destruct (matching_sections a) as [|m ms]; [done|].
  cbn [is_empty]. destruct (key_missing key); [done|].
  destruct (generate _) as [text|[|] e]; [|done..].
  destruct (negb _); [done|].
  destruct (loads text) as [value| |e]; [|done..].
  intros H. split; [done|]. exists value.
  split; [by apply validate_parsed_fields|by apply (validate_parsed_success text)].
Qed.

Lemma run_summarization_exn_returns key prompt setup generate parsed :
  (∃ e, run_summarization_exn key prompt setup generate parsed = inl e) ∨
  run_summarization_exn key prompt setup generate parsed
    = inr (run_summarization key prompt generate parsed).
Proof.
  unfold run_summarization_exn, summarize_relevant_content_exn,
    run_summarization, summarize_relevant_content.
  destruct (is_empty _); [by right|].
  destruct (key_missing key); [by right|].
  destruct setup as [e|]; [left; by exists e|right].
  destruct (generate _) as [text|t e]; [|done]. by destruct (is_empty text).
Qed.

Lemma summary_cases key prompt generate parsed :
  summary (run_summarization key prompt generate parsed) = [] ∨
  generate (summary_prompt prompt (content parsed))
    = Replied (summary (run_summarization key prompt generate parsed)).
Proof.
  unfold run_summarization, summarize_relevant_content.
  destruct (is_empty (content parsed)); [by left|].
  destruct (key_missing key); [by left|].
  destruct (generate _) as [text|t e]; [|by left].
  destruct text; [by left|by right].
Qed.

(** X19. When the full pipeline reports success, the PDF was decoded, the
    API key is set, the filter's service said yes for at least one section
    of the parser's output, the data returned is a parsed object with an
    object under "variables" and an array under "rules", not both empty,
    and the summary returned is either empty or the very text the
    summarizer's service replied. *)
Theorem pipeline_success :
  ∀ (sv : services) (path : str) (c : evaluation_results) (s : str),
    parse_with_summary_endpoint sv path = Components c s →
    e_success c = true →
    ∃ doc,
      fitz sv path = inr doc ∧
      key_missing (api_key sv) = false ∧
      (∃ (i : nat) sec text,
         content (extract_document doc None) !! i = Some sec ∧
         filter_model sv i (section_prompt (criteria sv) sec) = Replied text ∧
         says_yes text) ∧
      (∃ value, data c = Some value ∧ evaluation_model_shape value) ∧
      (s = [] ∨
       summary_model sv
         (summary_prompt (summarization_prompt sv)
            (content (extract_document doc None))) = Replied s).
Proof.
  intros sv path c s. unfold parse_with_summary_endpoint.
  destruct (fitz sv path) as [e|doc] eqn:Hf.
  { by rewrite (proj1 (extract_everything_failed sv path e Hf)). }
  rewrite (extract_everything_opened sv path doc Hf).
  destruct (run_summarization_exn_returns (api_key sv) (summarization_prompt sv)
              (summary_setup sv) (summary_model sv) (extract_document doc None))
    as [[e ->]| ->]; [done|].
  intros [= <- <-] Hok. exists doc. split; [done|].
  unfold parse_evaluation_components in *.
  apply parse_matching_sections_inv in Hok as [Hne Hdata].
  cbn [matching_sections] in Hne.
  destruct (matching_sections _) as [|r rs] eqn:Hm; [done|].
  destruct (matching_section_inv (api_key sv) (criteria sv) (filter_model sv)
              (extract_document doc None) r) as (Hkey & Hsec).
  { rewrite Hm. by left. }
  split; [done|]. split; [done|]. split; [done|].
  apply summary_cases.
Qed.

Lemma pipeline_success_witness :
  ∃ doc,
    fitz (sample_services scenario (Some (lit "key")))
         (lit "app/uploads/tender.pdf") = inr doc ∧
    key_missing (Some (lit "key")) = false ∧
    (∃ (i : nat) sec text,
       content (extract_document doc None) !! i = Some sec ∧
       always_yes i (section_prompt (lit "criteria") sec) = Replied text ∧
       says_yes text) ∧
    (∃ value,
       Some (JObject [ (lit "variables", JObject [(lit "bid_price", JNull)]);
                       (lit "rules", JArray []) ]) = Some value ∧
       evaluation_model_shape value) ∧
    (lit "A price model." = [] ∨
     replies "A price model."
       (summary_prompt (lit "summarize") (content (extract_document doc None)))
       = Replied (lit "A price model.")).
Proof.
  apply (pipeline_success (sample_services scenario (Some (lit "key")))
           (lit "app/uploads/tender.pdf")
           (EvaluationResults true None None
              (Some (JObject [ (lit "variables",
                                JObject [(lit "bid_price", JNull)]);
                               (lit "rules", JArray []) ])))
           (lit "A price model."));
    vm_compute; reflexivity.
Defined.

(* ===================================================================== *)
(** * What the prompts carry *)
(* ===================================================================== *)

Lemma combine_sections_eq (sections : list section) :
  combine_sections sections = flat_map section_piece sections.
Proof.
  unfold combine_sections.
  rewrite (fold_left_appending
             (λ combined sec, combined ++ section_piece sec)); [done|].
  intros acc x. done.
Qed.

Lemma combine_matching_eq (matching : list section_result) :
  combine_matching matching = flat_map matching_piece matching.
Proof.
  unfold combine_matching.
  rewrite (fold_left_appending
             (λ combined r, combined ++ matching_piece r)); [done|].
  intros acc x. done.
Qed.

Lemma flat_map_occurs {A} (f : A → str) (l : list A) (x : A) :
  x ∈ l → occurs_in (f x) (flat_map f l).
Proof.
  intros (l1 & l2 & ->)%list_elem_of_split.
  exists (flat_map f l1), (flat_map f l2).
  by rewrite flat_map_app.
Qed.

Lemma occurs_here (part rest : str) : occurs_in part (part ++ rest).
Proof. by exists [], rest. Qed.

Lemma occurs_last (part : str) : occurs_in part part.
Proof. exists [], []. by rewrite app_nil_r. Qed.

Lemma occurs_skip (part a b : str) : occurs_in part b → occurs_in part (a ++ b).
Proof.
  intros (pre & post & ->). exists (a ++ pre), post. by rewrite <- app_assoc.
Qed.

Ltac hide_literals :=
  repeat match goal with
         | |- context [lit ?s] => generalize (lit s); intro
         | |- context [chr ?n] => generalize (chr n); intro
         end;
  generalize newline; intro.

Ltac find_part :=
  rewrite <- ?app_assoc;
  repeat first [ apply occurs_here | apply occurs_last | apply occurs_skip ].

(** X20. The text sent to the summarizer is a preamble that depends on the
    summarization prompt alone, and starts with it, followed by every
    section of the parser's output, title and body, in output order; the
    text sent to the rule extractor is made of four fixed texts around the
    matching sections, in their order, and the summary, which is left out
    with its banner when it is empty.  So every section occurs in the first
    text, and every matching section and a non-empty summary occur in the
    second. *)
Theorem prompts_carry_the_sections :
  (∀ prompt : str,
     ∃ preamble : str,
       (∃ rest, preamble = prompt ++ rest) ∧
       ∀ sections : list section,
         summary_prompt prompt sections
           = preamble ++ flat_map section_piece sections) ∧
  (∃ head middle banner tail : str,
     ∀ (matching : list section_result) (evaluation_summary : str),
       evaluation_prompt matching evaluation_summary
         = head ++ flat_map matching_piece matching ++ middle ++
           (if is_empty evaluation_summary then []
            else banner ++ evaluation_summary) ++ tail) ∧
  (∀ (prompt : str) (sections : list section) (sec : section),
     sec ∈ sections →
     occurs_in (section_piece sec) (summary_prompt prompt sections)) ∧
  (∀ (matching : list section_result) (evaluation_summary : str),
     (∀ r, r ∈ matching →
           occurs_in (matching_piece r)
                     (evaluation_prompt matching evaluation_summary)) ∧
     (evaluation_summary ≠ [] →
      occurs_in evaluation_summary
                (evaluation_prompt matching evaluation_summary))).
Proof.
  split; [|split; [|split]].
  - intros prompt.
    exists (prompt ++ newline ++ newline ++
            lit "Sammanfatta utv" ++ chr 228 ++
            lit "rderingsmodellen nedan baserat p" ++ chr 229 ++
            lit " dessa sektioner utifr" ++ chr 229 ++
            lit "n ett upphandlingsdokument:").
    split; [by eexists|].
    intros sections. unfold summary_prompt. rewrite combine_sections_eq.
    generalize (flat_map section_piece sections). intros pieces.
    hide_literals. by rewrite <- !app_assoc.
  - exists (lit " Below is the relevant section from the procurement document, followed by a summary of the evaluation model." ++
            newline ++
            lit "                        --- Procurement Document Excerpt ---" ++
            newline ++ lit "                        "),
           (newline ++ newline ++
            lit "                        --- Evaluation Model Summary ---" ++
            newline ++ lit "                        "),
           (newline ++ lit "            ===== UTV" ++ chr 196 ++
            lit "RDERINGSMODELL SAMMANFATTNING =====" ++ newline ++
            lit "            "),
           (newline ++ newline ++
            lit "                        Please extract all price-affecting variables and rules according to the system instructions, and output a single valid JSON object as specified." ++
            newline ++ lit "                        ").
    intros matching evaluation_summary. unfold evaluation_prompt.
    rewrite combine_matching_eq.
    generalize (flat_map matching_piece matching). intros pieces.
    destruct (is_empty evaluation_summary);
      hide_literals; by rewrite <- !app_assoc.
  - intros prompt sections sec Hsec. unfold summary_prompt.
    rewrite combine_sections_eq.
    pose proof (flat_map_occurs section_piece sections sec Hsec) as Hocc.
    revert Hocc. generalize (flat_map section_piece sections).
    generalize (section_piece sec). intros part whole Hocc.
    hide_literals. rewrite <- ?app_assoc.
    repeat first [ exact Hocc | apply occurs_skip ].
  - intros matching evaluation_summary. unfold evaluation_prompt.
    rewrite combine_matching_eq. split.
    + intros r Hr.
      pose proof (flat_map_occurs matching_piece matching r Hr)
        as (pre & post & ->).
      generalize (matching_piece r). intros part.
      generalize (if is_empty evaluation_summary then []
                  else newline ++ lit "            ===== UTV" ++ chr 196 ++
                       lit "RDERINGSMODELL SAMMANFATTNING =====" ++ newline ++
                       lit "            " ++ evaluation_summary).
      intros summary_text. hide_literals. find_part.
    + intros Hne. destruct evaluation_summary as [|c t]; [done|].
      cbn [is_empty]. generalize (c :: t). intros part.
      generalize (flat_map matching_piece matching). intros combined.
      hide_literals. find_part.
Qed.
